(** * Bad-channel interpolation stage and analyzer extensions

    A shallow embedding of
      spikeinterface/preprocessing/interpolate_bad_channels.py
      spikeinterface/postprocessing/tests/common_extension_tests.py
    Python objects that are shared and mutated (numpy arrays) live in an
    explicit store; code that can raise runs in a state-and-exception monad
    in which the store survives an exception, as it does in Python. *)

From Stdlib Require Import ZArith Lia Reals Lra Ascii String QArith Qround.
From Stdlib Require Lqa.
From stdpp Require Import base tactics option list strings gmap sorting.

(** ** Exceptions *)

(** The Python exceptions raised by the modelled code and by the numpy
    operations it calls.  [RangeError] is the name the specification gives to
    an out-of-range frame request on a segment.  [DanglingReference] is not a
    Python exception: it is what the model answers when a reference names no
    object of the store, which a running program cannot produce. *)
Inductive exn :=
  | TypeError
  | ValueError
  | NotImplementedError
  | IndexError
  | AttributeError
  | RangeError
  | DanglingReference.

#[global] Instance exn_eq_dec : EqDecision exn.
Proof. solve_decision. Defined.

(** ** Array elements *)

(** The element type of trace, weight and coordinate arrays with the
    arithmetic numpy applies to it.  No algebraic law is assumed.  Traces and
    weights have the same element type: the cast numpy makes when a floating
    product is assigned into an integer buffer is not part of the model. *)
Class Scalar (T : Type) := {
  s_zero : T;
  s_add : T → T → T;
  s_sub : T → T → T;
  s_mul : T → T → T;
  s_leb : T → T → bool;
  s_eq_dec :: EqDecision T;
}.

#[global] Instance Z_scalar : Scalar Z := {|
  s_zero := 0%Z;
  s_add := Z.add;
  s_sub := Z.sub;
  s_mul := Z.mul;
  s_leb := Z.leb;
|}.

(** A numpy floating scalar as [scipy.stats.mode] returns it: a number or
    not-a-number. *)
Inductive np_scalar (T : Type) :=
  | NaN
  | Num (x : T).
Arguments NaN {T}.
Arguments Num {T} x.

(** ** Arrays and the store *)

Section Numpy.
Context {T : Type} `{!Scalar T}.

(** A two-dimensional array value of shape [(length rows, ncols)].  The
    column count is kept apart from the rows because an array with no row
    still has columns. *)
Record matrix := Matrix {
  ncols : nat;
  rows : list (list T);
}.

Definition nrows (m : matrix) : nat := length (rows m).
Definition shape (m : matrix) : nat * nat := (nrows m, ncols m).

Definition matrix_wf (m : matrix) : Prop :=
  Forall (λ r, length r = ncols m) (rows m).

(** What a numpy array object holds: trace buffers and weights are
    two-dimensional arrays of elements, channel index arrays are
    one-dimensional integer arrays. *)
Inductive array_data :=
  | Float2D (m : matrix)
  | Int1D (items : list Z).

(** An array object: numpy's [flags.writeable] and the contents. *)
Record ndarray := Ndarray {
  writeable : bool;
  data : array_data;
}.

(** References are positions in the store, a list of array objects. *)
Abbreviation loc := nat (only parsing).
Abbreviation heap := (list ndarray) (only parsing).

(** A basic-slicing view [a[lo:hi]] of the rows of the array at [base]:
    it shares the memory of [base]. *)
Record view := View {
  base : loc;
  lo : nat;
  hi : nat;
}.

(** ** Store and exception monad *)

Definition M (A : Type) : Type := heap → (exn + A) * heap.

#[global] Instance M_ret : MRet M := λ A a h, (inr a, h).
#[global] Instance M_bind : MBind M := λ A B f c h,
  match c h with
  | (inl e, h') => (inl e, h')
  | (inr a, h') => f a h'
  end.

Definition raise {A} (e : exn) : M A := λ h, (inl e, h).

Definition lift {A} (r : exn + A) : M A := λ h, (r, h).

Definition load (l : loc) : M ndarray := λ h,
  match h !! l with
  | Some a => (inr a, h)
  | None => (inl DanglingReference, h)
  end.

Definition alloc (a : ndarray) : M loc := λ h, (inr (length h), h ++ [a]).

Definition store (l : loc) (a : ndarray) : M unit := λ h, (inr (), <[l:=a]> h).

(** ** numpy operations *)

(** [a[lo:hi]] on rows. *)
Definition slice_rows (lo hi : nat) (rs : list (list T)) : list (list T) :=
  take (hi - lo) (drop lo rs).

(** The array value a view denotes. *)
Definition view_matrix (v : view) : M matrix :=
  a ← load (base v);
  match data a with
  | Float2D m => mret (Matrix (ncols m) (slice_rows (lo v) (hi v) (rows m)))
  | Int1D _ => raise TypeError
  end.

(** [traces.copy()]: a new writeable array with the contents of the view. *)
Definition np_copy (v : view) : M view :=
  m ← view_matrix v;
  l ← alloc (Ndarray true (Float2D m));
  mret (View l 0 (nrows m)).

(** numpy index normalisation along an axis of length [n]: an index in
    [-n, n) is accepted, negative ones count from the end. *)
Definition norm_index (n : nat) (i : Z) : option nat :=
  if bool_decide (0 ≤ i < Z.of_nat n)%Z then Some (Z.to_nat i)
  else if bool_decide (- Z.of_nat n ≤ i < 0)%Z then Some (Z.to_nat (i + Z.of_nat n))
  else None.

Definition norm_indices (n : nat) (idx : list Z) : exn + list nat :=
  match mapM (norm_index n) idx with
  | Some js => inr js
  | None => inl IndexError
  end.

(** Dot product of a row with column [j] of [w]. *)
Definition dot (r : list T) (col : list T) : T :=
  foldr s_add s_zero (zip_with s_mul r col).

Definition column (j : nat) (rs : list (list T)) : list T :=
  (λ r, default s_zero (r !! j)) <$> rs.

(** [a @ w] for two-dimensional arrays: the inner dimensions must agree. *)
Definition np_matmul (a w : matrix) : exn + matrix :=
  if bool_decide (ncols a = nrows w) then
    inr (Matrix (ncols w)
           ((λ r, (λ j, dot r (column j (rows w))) <$> seq 0 (ncols w)) <$> rows a))
  else inl ValueError.

(** Broadcasting of one axis of length [length l] to length [n]. *)
Definition broadcast_to {A} (n : nat) (l : list A) : option (list A) :=
  if bool_decide (length l = n) then Some l
  else match l with
       | [x] => Some (replicate n x)
       | _ => None
       end.

(** Broadcasting of a two-dimensional value to shape [(n, k)]. *)
Definition broadcast_matrix (n k : nat) (val : matrix) : exn + list (list T) :=
  if bool_decide (ncols val = k ∨ ncols val = 1) then
    match broadcast_to n (rows val) with
    | Some rs =>
        inr ((λ r, if bool_decide (ncols val = k) then r
                   else replicate k (default s_zero (r !! 0))) <$> rs)
    | None => inl ValueError
    end
  else inl ValueError.

(** [row[js] = vs] on one row: assignments happen in index order, so a
    repeated index keeps the last value. *)
Definition assign_row (js : list nat) (vs : list T) (r : list T) : list T :=
  foldl (λ acc jv, <[jv.1 := jv.2]> acc) r (zip js vs).

(** [a[:, idx] = val] on an array value, index array given by its
    contents.  An index array that is not of integer type is refused. *)
Definition assign_columns (a : matrix) (idx : array_data) (val : matrix)
  : exn + matrix :=
  match idx with
  | Int1D items =>
      match norm_indices (ncols a) items with
      | inl e => inl e
      | inr js =>
          match broadcast_matrix (nrows a) (length js) val with
          | inl e => inl e
          | inr vals => inr (Matrix (ncols a) (zip_with (assign_row js) vals (rows a)))
          end
      end
  | Float2D _ => inl IndexError
  end.

(** [v[:, idx] = val] through a view: the rows [lo, hi) of the array at
    [base v] are written in place.  A read-only destination is refused. *)
Definition np_setitem_cols (v : view) (idx : loc) (val : matrix) : M unit :=
  a ← load (base v);
  match data a with
  | Float2D m =>
      if writeable a then
        i ← load idx;
        new ← lift (assign_columns
                      (Matrix (ncols m) (slice_rows (lo v) (hi v) (rows m)))
                      (data i) val);
        store (base v)
          (Ndarray true
             (Float2D (Matrix (ncols m)
                (take (lo v) (rows m) ++ rows new ++ drop (hi v) (rows m)))))
      else raise ValueError
  | Int1D _ => raise TypeError
  end.

(** [a[i] = x] on a one-dimensional integer array. *)
Definition np_setitem_int (l : loc) (i : Z) (x : Z) : M unit :=
  a ← load l;
  match data a with
  | Int1D items =>
      if writeable a then
        match norm_index (length items) i with
        | Some j => store l (Ndarray true (Int1D (<[j:=x]> items)))
        | None => raise IndexError
        end
      else raise ValueError
  | Float2D _ => raise TypeError
  end.

(** [a.setflags(write=False)]. *)
Definition np_setflags_readonly (l : loc) : M unit :=
  a ← load l;
  store l (Ndarray false (data a)).

(** ** Segments *)

(** The [channel_indices] argument of [get_traces]: [slice(None)] or a list
    of channel indices. *)
Inductive channel_selection :=
  | SliceAll
  | Indices (idx : list Z).

(** A chain of segments.  [InterpolateBadChannelsSegment] keeps references
    to its parent, to the index array it was given and to the weights. *)
Inductive segment :=
  | NumpyRecordingSegment (traces : loc)
  | InterpolateBadChannelsSegment
      (parent_recording_segment : segment)
      (_bad_channel_indexes : loc)
      (_weights : loc).

Definition select_columns (js : list nat) (rs : list (list T)) : list (list T) :=
  (λ r, (λ j, default s_zero (r !! j)) <$> js) <$> rs.

(** Modelled from the spec: the in-memory leaf segment at the head of a
    chain (its class is not among the sources).  Section 4.1: a frame range
    outside [0 ≤ start ≤ end ≤ segment_length] fails with a RangeError, an
    invalid channel index with an IndexError.  [slice(None)] answers a view
    of the buffer, an index list a new array. *)
Definition numpy_segment_get_traces (traces : loc)
    (start_frame end_frame : Z) (channel_indices : channel_selection) : M view :=
  a ← load traces;
  match data a with
  | Float2D m =>
      if bool_decide (0 ≤ start_frame ≤ end_frame
                      ∧ end_frame ≤ Z.of_nat (nrows m))%Z then
        match channel_indices with
        | SliceAll => mret (View traces (Z.to_nat start_frame) (Z.to_nat end_frame))
        | Indices idx =>
            js ← lift (norm_indices (ncols m) idx);
            l ← alloc (Ndarray true (Float2D
                   (Matrix (length js)
                      (select_columns js
                         (slice_rows (Z.to_nat start_frame) (Z.to_nat end_frame)
                            (rows m))))));
            mret (View l 0 (Z.to_nat end_frame - Z.to_nat start_frame))
        end
      else raise RangeError
  | Int1D _ => raise TypeError
  end.

(** [traces @ self._weights], the weights read from the store. *)
Definition matmul_weights (traces : view) (weights : loc) : M matrix :=
  a ← view_matrix traces;
  w ← load weights;
  match data w with
  | Float2D wm => lift (np_matmul a wm)
  | Int1D _ => raise TypeError
  end.

(** [get_traces] of a chain.  The interpolation segment asks its parent for
    all channels, copies, overwrites the bad columns and returns the copy;
    its [channel_indices] argument is not used. *)
Fixpoint get_traces (seg : segment) (start_frame end_frame : Z)
    (channel_indices : channel_selection) : M view :=
  match seg with
  | NumpyRecordingSegment buf =>
      numpy_segment_get_traces buf start_frame end_frame channel_indices
  | InterpolateBadChannelsSegment parent bad_channel_indexes weights =>
      traces ← get_traces parent start_frame end_frame SliceAll;
      traces ← np_copy traces;
      product ← matmul_weights traces weights;
      np_setitem_cols traces bad_channel_indexes product;;
      mret traces
  end.

End Numpy.

Abbreviation loc := nat (only parsing).
Abbreviation heap T := (list (ndarray (T:=T))) (only parsing).

(** ** The interpolation stage *)

Section Stage.
Context {T : Type} `{!Scalar T}.

(** Modelled from the spec: the Probe interface of section 6, the
    coordinates of the contacts, one row per channel, and their unit. *)
Record Probe := {
  si_units : string;
  contact_positions : matrix (T:=T);
}.

(** Modelled from the spec: a Recording, an ordered sequence of segments
    that optionally carries a Probe.  The probe is kept in the
    [contact_vector] property, which is [None] when no probe is attached. *)
Record Recording := {
  contact_vector : option Probe;
  _recording_segments : list segment;
}.

Definition get_probe (recording : Recording) : M (T:=T) Probe :=
  match contact_vector recording with
  | Some probe => mret probe
  | None => raise ValueError
  end.

(** The Python values a caller may pass as [bad_channel_indexes]. *)
Inductive pyvalue :=
  | PyNone
  | PyInt (z : Z)
  | PyList (items : list Z)
  | PyNdarray (l : loc).

Definition is_ndarray (v : pyvalue) : bool :=
  match v with
  | PyNdarray _ => true
  | _ => false
  end.

Definition check_inputs (recording : Recording) (bad_channel_indexes : pyvalue)
  : M (T:=T) unit :=
  if negb (is_ndarray bad_channel_indexes) then raise TypeError
  else if bool_decide (contact_vector recording = None) then raise ValueError
  else
    probe ← get_probe recording;
    if negb (String.eqb (si_units probe) "um") then raise NotImplementedError
    else mret ().

(** [np.unique]: the sorted distinct values. *)
Fixpoint insert_unique (x : T) (l : list T) : list T :=
  match l with
  | [] => [x]
  | y :: l' =>
      if decide (x = y) then l
      else if s_leb x y then x :: l
      else y :: insert_unique x l'
  end.

Definition np_unique (l : list T) : list T := foldr insert_unique [] l.

(** [np.diff]: [out[i] = a[i+1] - a[i]]. *)
Definition np_diff (l : list T) : list T :=
  zip_with (λ a b, s_sub b a) l (tail l).

Definition occurrences (x : T) (l : list T) : nat :=
  length (filter (λ y, y = x) l).

(** [scipy.stats.mode(a, keepdims=False)[0]]: the most common value, the
    smallest one when several are as common, not-a-number for an empty
    input. *)
Definition scipy_stats_mode (l : list T) : np_scalar T :=
  match np_unique l with
  | [] => NaN
  | c :: cs =>
      Num (foldl (λ best x, if (occurrences best l <? occurrences x l)%nat
                            then x else best) c cs)
  end.

(** [contact_positions[:, 1]]. *)
Definition y_coordinates (contact_positions : matrix) : exn + list T :=
  if bool_decide (2 ≤ ncols contact_positions) then
    inr (column 1 (rows contact_positions))
  else inl IndexError.

Definition get_recommended_sigma_um (recording : Recording)
    (contact_positions : matrix) : M (T:=T) (np_scalar T) :=
  y ← lift (y_coordinates contact_positions);
  mret (scipy_stats_mode (np_diff (np_unique y))).

(** [preprocessing_tools.get_kriging_bad_channel_weights] is not among the
    sources: it is a parameter of the stage, a function of the contact
    positions, the contents of the index array, [sigma_um] and [p] that
    answers the weight matrix or raises. *)
Variable get_kriging_bad_channel_weights :
  matrix (T:=T) → array_data (T:=T) → np_scalar T → T → exn + matrix (T:=T).

Definition calculate_weights_and_lock_channel_idxs (self_bad_channel_indexes : loc)
    (contact_positions : matrix) (sigma_um : np_scalar T) (p : T) : M (T:=T) loc :=
  a ← load self_bad_channel_indexes;
  w ← lift (get_kriging_bad_channel_weights contact_positions (data a) sigma_um p);
  weights ← alloc (Ndarray true (Float2D w));
  np_setflags_readonly self_bad_channel_indexes;;
  mret weights.

Record Kwargs := {
  kw_recording : Recording;
  kw_bad_channel_indexes : loc;
  kw_p : T;
  kw_sigma_um : np_scalar T;
}.

(** The constructed stage. *)
Record InterpolateBadChannels := {
  bad_channel_indexes : loc;
  recording_segments : list (segment);
  _kwargs : Kwargs;
}.

(** The array object behind a value; [setflags] on a value that is no
    ndarray is an AttributeError. *)
Definition ndarray_of (v : pyvalue) : M (T:=T) loc :=
  match v with
  | PyNdarray l => mret l
  | _ => raise AttributeError
  end.

(** [InterpolateBadChannels.__init__(recording, bad_channel_indexes,
    sigma_um=None, p=1.3)].  [BasePreprocessor.__init__] copies the
    description of the parent recording and touches no array.  The default
    of [p] is passed by the caller. *)
Definition __init__ (recording : Recording) (bad_channel_indexes : pyvalue)
    (sigma_um : option (np_scalar T)) (p : T) : M (T:=T) InterpolateBadChannels :=
  check_inputs recording bad_channel_indexes;;
  self_bad_channel_indexes ← ndarray_of bad_channel_indexes;
  probe ← get_probe recording;
  let contact_positions := contact_positions probe in
  sigma_um ← match sigma_um with
             | None => get_recommended_sigma_um recording contact_positions
             | Some s => mret s
             end;
  weights ← calculate_weights_and_lock_channel_idxs self_bad_channel_indexes
              contact_positions sigma_um p;
  mret {|
    bad_channel_indexes := self_bad_channel_indexes;
    recording_segments :=
      (λ parent_segment,
         InterpolateBadChannelsSegment parent_segment
           self_bad_channel_indexes weights) <$> _recording_segments recording;
    _kwargs := {|
      kw_recording := recording;
      kw_bad_channel_indexes := self_bad_channel_indexes;
      kw_p := p;
      kw_sigma_um := sigma_um;
    |};
  |}.

End Stage.

(** The y-coordinates of the rows of a probe with pitch [d]. *)
Definition row_positions (y0 d : Z) (n : nat) : list Z :=
  (λ i, (y0 + d * Z.of_nat i)%Z) <$> seq 0 n.

(** ** Pulls: what a call of [get_traces] computes *)

Section PullValues.
Context {T : Type} `{!Scalar T}.
Implicit Types (h : heap T) (seg : segment) (x y : matrix (T:=T)).

(** The array a pull returns, read in the store the pull leaves. *)
Definition pull_value (seg : segment) (start_frame end_frame : Z)
    (channel_indices : channel_selection) (h : heap T) : exn + matrix (T:=T) :=
  match get_traces seg start_frame end_frame channel_indices h with
  | (inl e, _) => inl e
  | (inr v, h') => (view_matrix v h').1
  end.

(** The value the interpolation segment computes from the parent's traces
    [x]: the product with the weights, assigned to the bad columns. *)
Definition interpolated (h : heap T) (x : matrix) (bad weights : loc)
  : exn + matrix (T:=T) :=
  match h !! weights with
  | None => inl DanglingReference
  | Some wa =>
      match data wa with
      | Int1D _ => inl TypeError
      | Float2D wm =>
          match np_matmul x wm with
          | inl e => inl e
          | inr product =>
              match h !! bad with
              | None => inl DanglingReference
              | Some ba => assign_columns x (data ba) product
              end
          end
      end
  end.

(** Every reference of the chain names an object of the store. *)
Fixpoint seg_valid (h : heap T) (seg : segment) : Prop :=
  match seg with
  | NumpyRecordingSegment buf => buf < length h
  | InterpolateBadChannelsSegment parent bad weights =>
      seg_valid h parent ∧ bad < length h ∧ weights < length h
  end.

(** The answer of the leaf segment as a function of its buffer. *)
Definition numpy_pull (buffer : option (ndarray (T:=T))) (s e : Z)
    (ci : channel_selection) : exn + matrix (T:=T) :=
  match buffer with
  | None => inl DanglingReference
  | Some a =>
      match data a with
      | Int1D _ => inl TypeError
      | Float2D m =>
          if bool_decide (0 ≤ s ≤ e ∧ e ≤ Z.of_nat (nrows m))%Z then
            let frames := slice_rows (Z.to_nat s) (Z.to_nat e) (rows m) in
            match ci with
            | SliceAll => inr (Matrix (ncols m) frames)
            | Indices idx =>
                match norm_indices (ncols m) idx with
                | inl err => inl err
                | inr js => inr (Matrix (length js) (select_columns js frames))
                end
            end
          else inl RangeError
      end
  end.

Definition heap_wf (h : heap T) : Prop :=
  Forall (λ a, match data a with Float2D m => matrix_wf m | Int1D _ => True end) h.

(** The buffer at the head of a chain. *)
Fixpoint leaf_buffer (seg : segment) : loc :=
  match seg with
  | NumpyRecordingSegment buf => buf
  | InterpolateBadChannelsSegment parent _ _ => leaf_buffer parent
  end.

End PullValues.

(** ** Operations a program may run on the store after construction *)

Section Operations.
Context {T : Type} `{!Scalar T}.

(** Item assignments, new arrays, copies, [setflags(write=False)] and pulls
    through any chain.  Setting a flag back with [setflags(write=True)] is not
    among them. *)
Inductive array_operation :=
  | SetitemInt (l : loc) (i x : Z)
  | SetitemCols (v : view) (idx : loc) (val : matrix (T:=T))
  | NewArray (a : ndarray (T:=T))
  | Copy (v : view)
  | SetflagsReadonly (l : loc)
  | Pull (seg : segment) (start_frame end_frame : Z) (channel_indices : channel_selection).

Definition run_operation (op : array_operation) (h : heap T) : heap T :=
  match op with
  | SetitemInt l i x => (np_setitem_int l i x h).2
  | SetitemCols v idx val => (np_setitem_cols v idx val h).2
  | NewArray a => (alloc a h).2
  | Copy v => (np_copy v h).2
  | SetflagsReadonly l => (np_setflags_readonly l h).2
  | Pull seg s e ci => (get_traces seg s e ci h).2
  end.

Definition run_operations (ops : list array_operation) (h : heap T) : heap T :=
  foldl (λ h op, run_operation op h) h ops.

End Operations.

(** ** The interpolation weights *)

Section Kriging.
Local Open Scope R_scope.

Definition Rsum (l : list R) : R := foldr Rplus 0 l.

(** Euclidean distance between two contacts given by their coordinates. *)
Definition dist (a b : list R) : R :=
  sqrt (Rsum (zip_with (λ u v, (u - v) * (u - v)) a b)).

(** [x ** p] for a non-negative base, with numpy's [0 ** p = 0]. *)
Definition power (x p : R) : R :=
  if Req_dec_T x 0 then 0 else Rpower x p.

(** The weight of good channel [g] for bad channel [b] before
    normalisation: [exp(-(dist(b,g)/sigma_um)^p)]. *)
Definition kernel (sigma_um p : R) (b g : list R) : R :=
  exp (- power (dist b g / sigma_um) p).

Definition is_bad (bad_channel_indexes : list nat) (c : nat) : bool :=
  bool_decide (c ∈ bad_channel_indexes).

(** The unnormalised entry of channel [c] in the column of bad channel [b]:
    bad channels contribute nothing. *)
Definition raw_weight (contact_positions : list (list R))
    (bad_channel_indexes : list nat) (sigma_um p : R) (b c : nat) : R :=
  if is_bad bad_channel_indexes c then 0
  else kernel sigma_um p (contact_positions !!! b) (contact_positions !!! c).

Definition weight_total (contact_positions : list (list R))
    (bad_channel_indexes : list nat) (sigma_um p : R) (b : nat) : R :=
  Rsum ((λ c, raw_weight contact_positions bad_channel_indexes sigma_um p b c)
          <$> seq 0 (length contact_positions)).

(** Modelled from the spec: [preprocessing_tools.get_kriging_bad_channel_weights],
    which is not among the sources, over the real numbers.  Section 4.2: for
    each bad channel [b] and each good channel [g] the weight is
    [exp(-(dist(b,g)/sigma_um)^p)], normalised so that the weights of [b] sum
    to 1 over the good channels; the matrix has one row per channel and one
    column per bad channel, and a channel that is no source of interpolation
    (a bad channel) has a zero row. *)
Definition get_kriging_bad_channel_weights (contact_positions : list (list R))
    (bad_channel_indexes : list nat) (sigma_um p : R) : matrix (T:=R) :=
  Matrix (length bad_channel_indexes)
    ((λ c, (λ b, raw_weight contact_positions bad_channel_indexes sigma_um p b c
                 / weight_total contact_positions bad_channel_indexes sigma_um p b)
             <$> bad_channel_indexes)
       <$> seq 0 (length contact_positions)).

(** Entry [(c, j)] of a matrix of reals. *)
Definition entry (m : matrix (T:=R)) (c j : nat) : R :=
  default 0 (rows m !! c ≫= λ r, r !! j).

(** The good channels of a probe with [n] contacts. *)
Definition good_channels (n : nat) (bad_channel_indexes : list nat) : list nat :=
  filter (λ c, c ∉ bad_channel_indexes) (seq 0 n).

End Kriging.

(** ** Extensions and the analyzer *)

(** [s.split("|")]. *)
Fixpoint split_bar (s : string) : list string :=
  match s with
  | EmptyString => [EmptyString]
  | String c s' =>
      if Ascii.eqb c "|"%char then EmptyString :: split_bar s'
      else match split_bar s' with
           | x :: xs => String c x :: xs
           | [] => [String c EmptyString]
           end
  end.

(** ["|" in s]. *)
Fixpoint has_bar (s : string) : bool :=
  match s with
  | EmptyString => false
  | String c s' => Ascii.eqb c "|"%char || has_bar s'
  end.

(** The name [_prepare_sorting_analyzer] computes for a dependency. *)
Definition computed_name (dependency_name : string) : string :=
  if has_bar dependency_name
  then default dependency_name (head (split_bar dependency_name))
  else dependency_name.

Inductive analyzer_error :=
  | NameError
  | CycleError
  | ComputeError
  | OutOfFuel.

Section Extensions.
Context {params data : Type}.

(** Modelled from the spec: an extension class of the registry of section
    4.3, with the names it depends on, the flag for heavy computation and
    the parameters used when none are given. *)
Record ExtensionClass := {
  depend_on : list string;
  need_job_kwargs : bool;
  default_params : params;
}.

(** A cached result: the parameters it was computed with and its data. *)
Record ExtensionResult := {
  ext_params : params;
  ext_data : data;
}.

Variable registry : gmap string ExtensionClass.

(** The algorithm of an extension, run on the cache that holds its
    dependencies; [None] is a compute-time failure. *)
Variable algorithm : string → params → gmap string ExtensionResult → option data.

Definition cached (cache : gmap string ExtensionResult) (name : string) : bool :=
  bool_decide (is_Some (cache !! name)).

(** Modelled from the spec: resolution of one dependency name (section 4.3).
    A name that encodes a disjunction "A|B" is satisfied when one of its
    alternatives is cached; otherwise the first alternative is computed with
    its default parameters.  A plain name is its own single alternative. *)
Definition resolve_dependency
    (compute_rec : string → params → gmap string ExtensionResult
                   → analyzer_error + gmap string ExtensionResult)
    (dependency_name : string) (cache : gmap string ExtensionResult)
  : analyzer_error + gmap string ExtensionResult :=
  let alternatives := split_bar dependency_name in
  if existsb (cached cache) alternatives then inr cache
  else
    let first := default dependency_name (head alternatives) in
    match registry !! first with
    | None => inl NameError
    | Some cls => compute_rec first (default_params cls) cache
    end.

Definition resolve_dependencies
    (compute_rec : string → params → gmap string ExtensionResult
                   → analyzer_error + gmap string ExtensionResult)
    (dependency_names : list string) (cache : gmap string ExtensionResult)
  : analyzer_error + gmap string ExtensionResult :=
  foldl (λ acc dependency_name,
           match acc with
           | inl err => inl err
           | inr c => resolve_dependency compute_rec dependency_name c
           end) (inr cache) dependency_names.

(** Modelled from the spec: [Analyzer.compute] (sections 4.3 and 4.4), whose
    class is not among the sources.  An unknown name fails with NameError; a
    name that is reached again while it is being computed fails with
    CycleError; each dependency is resolved, then the algorithm runs and its
    result replaces the entry of [name].  The answer is the new cache; on an
    error the caller keeps the cache it had.  [fuel] bounds the depth of the
    walk. *)
Fixpoint compute_with (fuel : nat) (visiting : gset string) (name : string)
    (ps : params) (cache : gmap string ExtensionResult)
  : analyzer_error + gmap string ExtensionResult :=
  match fuel with
  | 0 => inl OutOfFuel
  | S fuel' =>
      match registry !! name with
      | None => inl NameError
      | Some cls =>
          if decide (name ∈ visiting) then inl CycleError
          else
            match resolve_dependencies
                    (compute_with fuel' ({[name]} ∪ visiting))
                    (depend_on cls) cache with
            | inl err => inl err
            | inr cache1 =>
                match algorithm name ps cache1 with
                | None => inl ComputeError
                | Some d => inr (<[name := {| ext_params := ps; ext_data := d |}]> cache1)
                end
            end
      end
  end.

Definition compute (name : string) (ps : params)
    (cache : gmap string ExtensionResult)
  : analyzer_error + gmap string ExtensionResult :=
  compute_with (S (size registry)) ∅ name ps cache.

(** [compute(name)] without parameters. *)
Definition compute_default (name : string) (cache : gmap string ExtensionResult)
  : analyzer_error + gmap string ExtensionResult :=
  match registry !! name with
  | None => inl NameError
  | Some cls => compute name (default_params cls) cache
  end.

(** [AnalyzerExtensionCommonTestSuite._prepare_sorting_analyzer] on the cache
    of the analyzer it created: "random_spikes" is computed with the given
    parameters, then each dependency of the class, by the part of its name
    before the first "|", with default parameters. *)
Definition _prepare_sorting_analyzer (random_spikes_params : params)
    (extension_class : ExtensionClass) (cache : gmap string ExtensionResult)
  : analyzer_error + gmap string ExtensionResult :=
  match compute "random_spikes" random_spikes_params cache with
  | inl err => inl err
  | inr cache0 =>
      foldl (λ acc dependency_name,
               match acc with
               | inl err => inl err
               | inr c =>
                   let dependency_name :=
                     if has_bar dependency_name
                     then default dependency_name (head (split_bar dependency_name))
                     else dependency_name in
                   compute_default dependency_name c
               end) (inr cache0) (depend_on extension_class)
  end.

(** [name] is cached with the default parameters of its class. *)
Definition default_entry (cache : gmap string ExtensionResult) (name : string) : Prop :=
  ∃ cls d, registry !! name = Some cls
           ∧ cache !! name = Some {| ext_params := default_params cls; ext_data := d |}.

(** [cache'] keeps the entries of [cache], leaves the names of [frozen]
    as they are, and whatever else it adds was computed with default
    parameters. *)
Definition grows_by_default (frozen : gset string) (cache cache' : gmap string ExtensionResult) : Prop :=
  (∀ k v, cache !! k = Some v → cache' !! k = Some v)
  ∧ (∀ k, k ∈ frozen → cache' !! k = cache !! k)
  ∧ (∀ k, cache !! k = None → cache' !! k = None ∨ default_entry cache' k).

(** What a recursive call of [compute] guarantees for the resolution that
    uses it. *)
Definition compute_spec (frozen : gset string)
    (rec : string → params → gmap string ExtensionResult → analyzer_error + gmap string ExtensionResult) : Prop :=
  ∀ name ps cache cache',
    rec name ps cache = inr cache' →
    (name ∉ frozen)
    ∧ (∀ k v, k ≠ name → cache !! k = Some v → cache' !! k = Some v)
    ∧ (∀ k, k ∈ frozen → cache' !! k = cache !! k)
    ∧ (∀ k, k ≠ name → cache !! k = None → cache' !! k = None ∨ default_entry cache' k)
    ∧ ∃ d, cache' !! name = Some {| ext_params := ps; ext_data := d |}.

End Extensions.

(** ** Unit selection *)

Section SelectUnits.
Context {unit_id V params : Type} `{!EqDecision unit_id}.

(** One row of the spike table of the sorting result. *)
Record Spike := {
  sample_index : Z;
  unit_index : nat;
  segment_index : nat;
}.

(** A field of an extension result: one value per unit or one per spike. *)
Inductive field :=
  | PerUnit (values : list V)
  | PerSpike (values : list V).

(** Modelled from the spec: the Analyzer of sections 3 and 4.4, its unit
    ids, the spike table of its sorting result and its extension cache. *)
Record SortingAnalyzer := {
  unit_ids : list unit_id;
  spikes : list Spike;
  extensions : gmap string (ExtensionResult (params:=params) (data:=gmap string field));
}.

Definition index_of (u : unit_id) (ids : list unit_id) : option nat :=
  fst <$> list_find (λ x, x = u) ids.

(** The index, among the selected units, of the unit of a spike; [None]
    when its unit is not selected. *)
Definition new_unit_index (analyzer : SortingAnalyzer) (unit_subset : list unit_id)
    (sp : Spike) : option nat :=
  unit_ids analyzer !! unit_index sp ≫= λ u, index_of u unit_subset.

Definition keep_by_mask (mask : list bool) (values : list V) : list V :=
  fst <$> filter (λ vb, vb.2 = true) (zip values mask).

Definition project_field (positions : list nat) (mask : list bool) (f : field) : field :=
  match f with
  | PerUnit values => PerUnit (omap (λ i, values !! i) positions)
  | PerSpike values => PerSpike (keep_by_mask mask values)
  end.

(** Modelled from the spec: [Analyzer.select_units] (section 4.4), not
    among the sources.  The new analyzer has the given units in the given
    order; spikes of other units are dropped and unit indices renumbered;
    every per-unit field is projected on the units and every per-spike field
    filtered like the spike table.  An id that is not a unit of the analyzer
    is refused. *)
Definition select_units (unit_subset : list unit_id) (analyzer : SortingAnalyzer)
  : option SortingAnalyzer :=
  match mapM (λ u, index_of u (unit_ids analyzer)) unit_subset with
  | None => None
  | Some positions =>
      let mask := (λ sp, bool_decide (is_Some (new_unit_index analyzer unit_subset sp)))
                    <$> spikes analyzer in
      Some {|
        unit_ids := unit_subset;
        spikes :=
          omap (λ sp, match new_unit_index analyzer unit_subset sp with
                      | Some i => Some {| sample_index := sample_index sp;
                                          unit_index := i;
                                          segment_index := segment_index sp |}
                      | None => None
                      end)
            (spikes analyzer);
        extensions :=
          (λ r : ExtensionResult (params:=params) (data:=gmap string field),
             {| ext_params := ext_params r;
                ext_data := project_field positions mask <$> ext_data r |})
            <$> extensions analyzer;
      |}
  end.

(** [unit_ids[::2]]. *)
Fixpoint every_second {A} (l : list A) : list A :=
  match l with
  | [] => []
  | [x] => [x]
  | x :: _ :: l' => x :: every_second l'
  end.

(** The arrays of the cache are indexed like the units or like the spikes,
    the unit ids are distinct and every spike belongs to a unit. *)
Definition field_wf (analyzer : SortingAnalyzer) (f : field) : Prop :=
  match f with
  | PerUnit values => length values = length (unit_ids analyzer)
  | PerSpike values => length values = length (spikes analyzer)
  end.

Definition analyzer_wf (analyzer : SortingAnalyzer) : Prop :=
  NoDup (unit_ids analyzer)
  ∧ Forall (λ sp, unit_index sp < length (unit_ids analyzer)) (spikes analyzer)
  ∧ ∀ name r fname f,
      extensions analyzer !! name = Some r → ext_data r !! fname = Some f →
      field_wf analyzer f.

End SelectUnits.

(** ** Concrete inputs *)

Section Examples.

(** A store with a trace buffer of two frames and three channels, the index
    array [[1]] and a weight matrix of shape (3, 1). *)
Definition ex_store : heap Z :=
  [ Ndarray true (Float2D (Matrix 3 [[1; 2; 3]; [4; 5; 6]]%Z));
    Ndarray true (Int1D [1%Z]);
    Ndarray true (Float2D (Matrix 1 [[1]; [0]; [1]]%Z)) ].

Definition ex_segment : segment :=
  InterpolateBadChannelsSegment (NumpyRecordingSegment 0) 1 2.

(** A probe of two columns and four rows of contacts, 20 micrometres apart. *)
Definition ex_probe : Probe (T:=Z) := {|
  si_units := "um";
  contact_positions :=
    Matrix 2 [[0; 0]; [16; 0]; [0; 20]; [16; 20]; [0; 40]; [16; 40]; [0; 60]; [16; 60]]%Z;
|}.

Definition ex_recording : Recording (T:=Z) := {|
  contact_vector := Some ex_probe;
  _recording_segments := [NumpyRecordingSegment 0];
|}.

Definition ex_weights : matrix (T:=Z) := Matrix 1 [[1]; [0]; [1]]%Z.

Definition ex_kriging (positions : matrix (T:=Z)) (bad : array_data (T:=Z))
    (sigma_um : np_scalar Z) (p : Z) : exn + matrix (T:=Z) :=
  inr ex_weights.

Definition ex_stage : InterpolateBadChannels (T:=Z) := {|
  bad_channel_indexes := 1;
  recording_segments := [InterpolateBadChannelsSegment (NumpyRecordingSegment 0) 1 3];
  _kwargs := {| kw_recording := ex_recording; kw_bad_channel_indexes := 1;
                kw_p := 1%Z; kw_sigma_um := Num 20%Z |};
|}.

Definition ex_store_locked : heap Z :=
  [ Ndarray true (Float2D (Matrix 3 [[1; 2; 3]; [4; 5; 6]]%Z));
    Ndarray false (Int1D [1%Z]);
    Ndarray true (Float2D (Matrix 1 [[1]; [0]; [1]]%Z));
    Ndarray true (Float2D ex_weights) ].

(** Three contacts in a column, for the weights over the reals. *)
Definition ex_positions : list (list R) := [[0; 0]; [0; 20]; [0; 40]]%R.

(** A registry of four extensions. *)
Definition ex_registry : gmap string (ExtensionClass (params:=nat)) :=
  {[ "random_spikes" := {| depend_on := []; need_job_kwargs := false; default_params := 0 |};
     "waveforms" := {| depend_on := ["random_spikes"]; need_job_kwargs := true;
                       default_params := 1 |};
     "templates" := {| depend_on := ["random_spikes"; "waveforms|fast_templates"];
                       need_job_kwargs := false; default_params := 2 |};
     "amplitude_scalings" := {| depend_on := ["random_spikes"; "waveforms"; "templates"];
                                need_job_kwargs := true; default_params := 3 |} ]}.

Definition ex_amplitude_scalings : ExtensionClass (params:=nat) :=
  {| depend_on := ["random_spikes"; "waveforms"; "templates"];
     need_job_kwargs := true; default_params := 3 |}.

(** An algorithm that answers how many results were cached when it ran. *)
Definition ex_algorithm (name : string) (ps : nat)
    (cache : gmap string (ExtensionResult (params:=nat) (data:=nat))) : option nat :=
  Some (size cache).

Definition ex_cache : gmap string (ExtensionResult (params:=nat) (data:=nat)) :=
  match compute ex_registry ex_algorithm "amplitude_scalings" 7 ∅ with
  | inr cache => cache
  | inl _ => ∅
  end.

(** An analyzer of three units and four spikes with one cached extension. *)
Definition ex_analyzer : SortingAnalyzer (unit_id:=nat) (V:=Z) (params:=nat) := {|
  unit_ids := [10; 20; 30];
  spikes := [ {| sample_index := 5; unit_index := 0; segment_index := 0 |};
              {| sample_index := 9; unit_index := 2; segment_index := 0 |};
              {| sample_index := 12; unit_index := 1; segment_index := 0 |};
              {| sample_index := 3; unit_index := 2; segment_index := 1 |} ];
  extensions :=
    {[ "amplitude_scalings" :=
         {| ext_params := 7;
            ext_data := {[ "amplitude_scalings" := PerSpike [1; 1; 2; 1]%Z;
                           "median" := PerUnit [1; 2; 1]%Z ]} |} ]};
|}.

End Examples.


(** ** Further definitions for the properties of the stage *)

Section StageValues.
Context {T : Type} `{!Scalar T}.

(** The [sigma_um] the constructor goes on with: the one it was given, or
    the recommended one. *)
Definition resolved_sigma_um (sigma_um : option (np_scalar T))
    (contact_positions : matrix (T:=T)) : exn + np_scalar T :=
  match sigma_um with
  | Some s => inr s
  | None =>
      match y_coordinates contact_positions with
      | inl err => inl err
      | inr y => inr (scipy_stats_mode (np_diff (np_unique y)))
      end
  end.

(** The stage and the store a successful construction leaves: the weights
    are appended to the store, the index array is made read-only. *)
Definition constructed_stage (recording : Recording (T:=T)) (b : loc)
    (sigma_um : np_scalar T) (p : T) (weights : loc) : InterpolateBadChannels (T:=T) := {|
  bad_channel_indexes := b;
  recording_segments :=
    (λ parent, InterpolateBadChannelsSegment parent b weights)
      <$> _recording_segments recording;
  _kwargs := {| kw_recording := recording; kw_bad_channel_indexes := b;
                kw_p := p; kw_sigma_um := sigma_um |};
|}.

Definition constructed_store (h : heap T) (b : loc) (a : ndarray (T:=T))
    (w : matrix (T:=T)) : heap T :=
  <[b := Ndarray false (data a)]> (h ++ [Ndarray true (Float2D w)]).

End StageValues.


(** ** The helpers of the extension test suite *)

(** [str(b)] for a Python bool. *)
Definition python_str_bool (b : bool) : string :=
  if b then "True" else "False".

(** What the branches on [format] leave in the local variable [folder]:
    nothing (the name stays unbound), [None], or a path below the cache
    folder.  A path is the list of its components. *)
Inductive folder_binding :=
  | Unbound
  | Bound (folder : option (list string)).

Definition analyzer_folder (cache_folder : list string) (name : string)
    (sparse : bool) (format : string) : folder_binding :=
  if String.eqb format "memory" then Bound None
  else if String.eqb format "binary_folder" then
    Bound (Some (cache_folder ++
      ["test_" +:+ name +:+ "_sparse" +:+ python_str_bool sparse +:+ "_" +:+ format]))
  else if String.eqb format "zarr" then
    Bound (Some (cache_folder ++
      ["test_" +:+ name +:+ "_sparse" +:+ python_str_bool sparse +:+ "_" +:+ format
       +:+ ".zarr"]))
  else Unbound.

(** [shutil.rmtree(folder)] on a file system given by the set of its paths:
    the folder goes with everything below it. *)
Definition rmtree (folder : list string) (fs : gset (list string)) : gset (list string) :=
  filter (λ p, ¬ (folder `prefix_of` p)) fs.

Inductive helper_error :=
  | UnboundLocalError.

Section GetSortingAnalyzer.
Context {recording_t sorting_t sparsity_t analyzer_t : Type}.

(** [pytest.global_test_folder / "postprocessing"] or
    [Path("cache_folder") / "postprocessing"]. *)
Variable cache_folder : list string.

(** [create_sorting_analyzer] is not among the sources: a parameter, called
    with the file system it finds. *)
Variable create_sorting_analyzer :
  sorting_t → recording_t → string → option (list string) → bool → option sparsity_t
  → gset (list string) → analyzer_t.

(** [get_sorting_analyzer(recording, sorting, format, sparsity, name)]. *)
Definition get_sorting_analyzer (recording : recording_t) (sorting : sorting_t)
    (format : string) (sparsity : option sparsity_t) (name : string)
    (fs : gset (list string)) : helper_error + analyzer_t :=
  let sparse := bool_decide (is_Some sparsity) in
  match analyzer_folder cache_folder name sparse format with
  | Unbound => inl UnboundLocalError
  | Bound folder =>
      let fs :=
        match folder with
        | Some f => if bool_decide (f ∈ fs) then rmtree f fs else fs
        | None => fs
        end in
      inr (create_sorting_analyzer sorting recording format folder false sparsity fs)
  end.

End GetSortingAnalyzer.

(** The cases of [run_extension_tests], in the order of its two loops. *)
Definition extension_test_cases : list (bool * string) :=
  sparse ← [true; false];
  format ← ["memory"; "binary_folder"; "zarr"];
  [(sparse, format)].


(** ** The test of the scaling values *)

Section ScalingTest.

(** [spikes["unit_index"] == unit_index]. *)
Definition unit_mask (unit_index : nat) (spike_unit_index : list nat) : list bool :=
  (λ u, bool_decide (u = unit_index)) <$> spike_unit_index.

Fixpoint sorted_insert (x : Q) (l : list Q) : list Q :=
  match l with
  | [] => [x]
  | y :: l' => if Qle_bool x y then x :: l else y :: sorted_insert x l'
  end.

(** [np.sort]. *)
Definition np_sort (l : list Q) : list Q := foldr sorted_insert [] l.

(** [np.median] of a one-dimensional array, over the rationals: the middle
    value of the sorted array, the mean of the two middle values for an even
    length, not-a-number for an empty array. *)
Definition np_median (l : list Q) : np_scalar Q :=
  let s := np_sort l in
  let n := length s in
  if (n =? 0)%nat then NaN
  else if Nat.odd n then Num (nth (n / 2) s 0%Q)
  else Num ((nth (n / 2 - 1) s 0%Q + nth (n / 2) s 0%Q) * (1 # 2))%Q.

(** [np.round]: to the nearest integer, a half to the even one. *)
Definition np_round (q : Q) : Z :=
  let f := Qfloor q in
  match (q - inject_Z f ?= 1 # 2)%Q with
  | Lt => f
  | Gt => (f + 1)%Z
  | Eq => if Z.even f then f else (f + 1)%Z
  end.

(** Whether [np.testing.assert_array_equal(np.round(np.median(scalings)), 1)]
    passes; not-a-number is not equal to 1. *)
Definition median_rounds_to_one (scalings : list Q) : bool :=
  match np_median scalings with
  | NaN => false
  | Num m => (np_round m =? 1)%Z
  end.

(** [test_scaling_values] on the unit indices of the spike vector and the
    scalings of the extension: whether the assertion passes for every unit of
    [enumerate(unit_ids)]. *)
Definition test_scaling_values (num_units : nat) (spike_unit_index : list nat)
    (amplitude_scalings : list Q) : bool :=
  forallb (λ unit_index,
             median_rounds_to_one
               (keep_by_mask (unit_mask unit_index spike_unit_index) amplitude_scalings))
    (seq 0 num_units).

End ScalingTest.


(** ** Further instances *)


Section FurtherExamples.

(** The store of [ex_store] with channel 1 named twice and weights of shape
    (3, 2). *)
Definition ex_store_repeated : heap Z :=
  [ Ndarray true (Float2D (Matrix 3 [[1; 2; 3]; [4; 5; 6]]%Z));
    Ndarray true (Int1D [1; 1]%Z);
    Ndarray true (Float2D (Matrix 2 [[1; 0]; [0; 0]; [0; 1]]%Z)) ].

(** The store of [ex_store] with no bad channel and weights of shape
    (3, 0). *)
Definition ex_store_no_bad : heap Z :=
  [ Ndarray true (Float2D (Matrix 3 [[1; 2; 3]; [4; 5; 6]]%Z));
    Ndarray true (Int1D []);
    Ndarray true (Float2D (Matrix 0 [[]; []; []])) ].

(** A probe of one row of three contacts. *)
Definition ex_probe_row : Probe (T:=Z) := {|
  si_units := "um";
  contact_positions := Matrix 2 [[0; 0]; [16; 0]; [32; 0]]%Z;
|}.

Definition ex_recording_row : Recording (T:=Z) := {|
  contact_vector := Some ex_probe_row;
  _recording_segments := [NumpyRecordingSegment 0];
|}.

(** A probe whose contact positions have an x column only. *)
Definition ex_probe_line : Probe (T:=Z) := {|
  si_units := "um";
  contact_positions := Matrix 1 [[0]; [16]]%Z;
|}.

Definition ex_recording_line : Recording (T:=Z) := {|
  contact_vector := Some ex_probe_line;
  _recording_segments := [NumpyRecordingSegment 0];
|}.

(** The cache [_prepare_sorting_analyzer] leaves for the amplitude
    scalings. *)
Definition ex_prepared_cache : gmap string (ExtensionResult (params:=nat) (data:=nat)) :=
  match _prepare_sorting_analyzer ex_registry ex_algorithm 9 ex_amplitude_scalings ∅ with
  | inr cache => cache
  | inl _ => ∅
  end.

End FurtherExamples.

(** * Properties *)

(** ** Pulls *)

Section Pull.
Context {T : Type} `{!Scalar T}.
Implicit Types (h : heap T) (seg : segment) (x y : matrix (T:=T)).

Lemma slice_rows_all (rs : list (list T)) : slice_rows 0 (length rs) rs = rs.
Proof. unfold slice_rows. rewrite Nat.sub_0_r, drop_0. apply firstn_all. Qed.

Lemma matrix_eta x : Matrix (ncols x) (rows x) = x.
Proof. by destruct x. Qed.

Lemma lookup_snoc h (a : ndarray (T:=T)) : (h ++ [a]) !! length h = Some a.
Proof. rewrite lookup_app_r by lia. by rewrite Nat.sub_diag. Qed.

Lemma insert_snoc h (a b : ndarray (T:=T)) : <[length h := b]> (h ++ [a]) = h ++ [b].
Proof. rewrite insert_app_r_alt by lia. by rewrite Nat.sub_diag. Qed.

Lemma length_broadcast_to {A} n (l l' : list A) :
  broadcast_to n l = Some l' → length l' = n.
Proof.
  unfold broadcast_to. case_bool_decide as Hn.
  - by intros [= <-].
  - destruct l as [|a [|b l]]; intros [= <-]. apply length_replicate.
Qed.

Lemma assign_columns_shape x idx val y :
  assign_columns x idx val = inr y → ncols y = ncols x ∧ nrows y = nrows x.
Proof.
  unfold assign_columns. destruct idx as [m|items]; [done|].
  destruct (norm_indices _ _) as [e|js]; [done|].
  unfold broadcast_matrix. case_bool_decide; [|done].
  destruct (broadcast_to _ _) as [rs|] eqn:Hb; [|done].
  intros [= <-]. split; [done|]. unfold nrows. simpl.
  rewrite length_zip_with, length_fmap.
  apply length_broadcast_to in Hb. unfold nrows in Hb. lia.
Qed.

Lemma interpolated_shape h x bad weights y :
  interpolated h x bad weights = inr y → ncols y = ncols x ∧ nrows y = nrows x.
Proof.
  unfold interpolated. intros Hy.
  repeat case_match; try done. by eapply assign_columns_shape.
Qed.

Lemma view_matrix_heap v h : (view_matrix v h).2 = h.
Proof.
  unfold view_matrix, mbind, M_bind, load.
  destruct (h !! base v) as [a|]; [|done]. by destruct (data a).
Qed.

Lemma np_copy_run v h :
  np_copy v h =
  match (view_matrix v h).1 with
  | inl err => (inl err, h)
  | inr x => (inr (View (length h) 0 (nrows x)), h ++ [Ndarray true (Float2D x)])
  end.
Proof.
  unfold np_copy. unfold mbind at 1, M_bind at 1.
  pose proof (view_matrix_heap v h) as Hh.
  destruct (view_matrix v h) as [[err|x] h']; simpl in Hh; by subst h'.
Qed.

(** Reading back a whole array that was just appended. *)
Lemma view_matrix_fresh h x w :
  view_matrix (View (length h) 0 (nrows x)) (h ++ [Ndarray w (Float2D x)]) =
  (inr x, h ++ [Ndarray w (Float2D x)]).
Proof.
  unfold view_matrix, mbind, M_bind, load. cbn [base lo hi].
  rewrite lookup_snoc. cbn [data]. unfold mret, M_ret, nrows.
  by rewrite slice_rows_all, matrix_eta.
Qed.

Lemma np_setitem_cols_fresh h x bad product :
  np_setitem_cols (View (length h) 0 (nrows x)) bad product
    (h ++ [Ndarray true (Float2D x)]) =
  match (h ++ [Ndarray true (Float2D x)]) !! bad with
  | None => (inl DanglingReference, h ++ [Ndarray true (Float2D x)])
  | Some ba =>
      match assign_columns x (data ba) product with
      | inl err => (inl err, h ++ [Ndarray true (Float2D x)])
      | inr y => (inr (), h ++ [Ndarray true (Float2D y)])
      end
  end.
Proof.
  unfold np_setitem_cols, mbind, M_bind, load, lift, store. cbn [base lo hi].
  rewrite lookup_snoc. cbn [data writeable].
  destruct (_ !! bad) as [ba|]; [|done].
  unfold nrows. rewrite slice_rows_all, matrix_eta.
  destruct (assign_columns x (data ba) product) as [err|y] eqn:Hy; [done|].
  rewrite insert_snoc. cbn [take].
  apply assign_columns_shape in Hy as [Hc Hr]. unfold nrows in Hr.
  by rewrite drop_all, app_nil_r, <- Hc, matrix_eta.
Qed.

(** One pull of the interpolation segment, step by step: the parent's
    answer, the private copy appended to the store, the copy overwritten. *)
Lemma get_traces_interpolate_unfold parent bad weights s e ci h :
  get_traces (InterpolateBadChannelsSegment parent bad weights) s e ci h =
  match get_traces parent s e SliceAll h with
  | (inl err, h1) => (inl err, h1)
  | (inr v, h1) =>
      match (view_matrix v h1).1 with
      | inl err => (inl err, h1)
      | inr x =>
          let h2 := h1 ++ [Ndarray true (Float2D x)] in
          match interpolated h2 x bad weights with
          | inl err => (inl err, h2)
          | inr y =>
              (inr (View (length h1) 0 (nrows x)),
               h1 ++ [Ndarray true (Float2D y)])
          end
      end
  end.
Proof.
  cbn [get_traces]. unfold mbind at 1, M_bind at 1.
  destruct (get_traces parent s e SliceAll h) as [[err|v] h1]; [done|].
  unfold mbind at 1, M_bind at 1. rewrite np_copy_run.
  destruct (view_matrix v h1).1 as [err|x]; [done|].
  unfold mbind at 1, M_bind at 1, matmul_weights.
  unfold mbind at 1, M_bind at 1. rewrite view_matrix_fresh.
  unfold mbind at 1, M_bind at 1, load, interpolated. cbn zeta.
  destruct (_ !! weights) as [wa|]; [|done].
  destruct (data wa) as [wm|]; [|done]. unfold lift.
  destruct (np_matmul x wm) as [err|product]; [done|].
  unfold mbind, M_bind. rewrite np_setitem_cols_fresh.
  destruct (_ !! bad) as [ba|]; [|done].
  by destruct (assign_columns x (data ba) product).
Qed.

(** A pull only appends to the store: no array that existed before the
    call is written. *)
Lemma get_traces_appends seg s e ci h res h' :
  get_traces seg s e ci h = (res, h') → ∃ new, h' = h ++ new.
Proof.
  revert s e ci h res h'. induction seg as [buf|parent IH bad weights]; intros s e ci h res h'.
  - cbn [get_traces]. unfold numpy_segment_get_traces, mbind, M_bind, load, raise, lift, alloc, mret, M_ret.
    destruct (h !! buf) as [a|]; [|intros [= _ <-]; exists []; by rewrite app_nil_r].
    destruct (data a) as [m|]; [|intros [= _ <-]; exists []; by rewrite app_nil_r].
    case_bool_decide; [|intros [= _ <-]; exists []; by rewrite app_nil_r].
    destruct ci as [|idx]; [intros [= _ <-]; exists []; by rewrite app_nil_r|].
    destruct (norm_indices _ _); intros [= _ <-]; [exists []; by rewrite app_nil_r|].
    by eexists.
  - rewrite get_traces_interpolate_unfold.
    destruct (get_traces parent s e SliceAll h) as [[err|v] h1] eqn:Hp;
      apply IH in Hp as [new1 ->]; [intros [= _ <-]; by eexists|].
    destruct (view_matrix v _).1 as [err|x]; [intros [= _ <-]; by eexists|].
    cbn zeta. destruct (interpolated _ _ _ _); intros [= _ <-];
      rewrite <- app_assoc; by eexists.
Qed.

Lemma seg_valid_app h ext seg : seg_valid h seg → seg_valid (h ++ ext) seg.
Proof.
  induction seg as [buf|parent IH bad weights]; cbn [seg_valid];
    rewrite length_app; [lia|]. intros (?&?&?). split; [auto|lia].
Qed.

Lemma interpolated_app h ext x bad weights :
  bad < length h → weights < length h →
  interpolated (h ++ ext) x bad weights = interpolated h x bad weights.
Proof.
  intros Hb Hw. unfold interpolated.
  rewrite (lookup_app_l h ext weights), (lookup_app_l h ext bad) by done. done.
Qed.

Lemma length_slice_rows (lo hi : nat) (rs : list (list T)) :
  hi ≤ length rs → length (slice_rows lo hi rs) = hi - lo.
Proof. intros Hhi. unfold slice_rows. rewrite length_take, length_drop. lia. Qed.

Lemma pull_value_numpy buf s e ci h :
  pull_value (NumpyRecordingSegment buf) s e ci h = numpy_pull (h !! buf) s e ci.
Proof.
  unfold pull_value, numpy_pull. cbn [get_traces].
  unfold numpy_segment_get_traces, mbind, M_bind, load.
  destruct (h !! buf) as [a|] eqn:Ha; [|done].
  destruct (data a) as [m|] eqn:Hm; [|done].
  case_bool_decide as Hrange; [|done].
  destruct ci as [|idx].
  - unfold mret, M_ret, view_matrix, mbind, M_bind, load. cbn [base lo hi].
    by rewrite Ha, Hm.
  - unfold lift. destruct (norm_indices (ncols m) idx) as [err|js]; [done|].
    unfold alloc, mret, M_ret.
    set (x := Matrix (length js) _).
    replace (Z.to_nat e - Z.to_nat s) with (nrows x); [by rewrite view_matrix_fresh|].
    unfold nrows, x, select_columns. cbn [rows].
    rewrite length_fmap, length_slice_rows; [done|]. unfold nrows in Hrange. lia.
Qed.

(** The answer of the interpolation segment is the transform of the
    answer of its parent. *)
Lemma pull_value_interpolate parent bad weights s e ci h :
  bad < length h → weights < length h →
  pull_value (InterpolateBadChannelsSegment parent bad weights) s e ci h =
  match pull_value parent s e SliceAll h with
  | inl err => inl err
  | inr x => interpolated h x bad weights
  end.
Proof.
  intros Hb Hw. unfold pull_value. rewrite get_traces_interpolate_unfold.
  destruct (get_traces parent s e SliceAll h) as [[err|v] h1] eqn:Hp; [done|].
  apply get_traces_appends in Hp as [new1 ->].
  destruct (view_matrix v _).1 as [err|x]; [done|]. cbn zeta.
  rewrite <- app_assoc, interpolated_app by done.
  destruct (interpolated h x bad weights) as [err|y] eqn:Hy; [done|].
  apply interpolated_shape in Hy as [_ <-]. by rewrite view_matrix_fresh.
Qed.

(** A pull reads only the arrays its chain refers to: allocations made in
    between do not change its answer. *)
Lemma pull_value_app seg s e ci h ext :
  seg_valid h seg → pull_value seg s e ci (h ++ ext) = pull_value seg s e ci h.
Proof.
  revert s e ci. induction seg as [buf|parent IH bad weights]; intros s e ci Hv.
  - cbn in Hv. by rewrite !pull_value_numpy, lookup_app_l.
  - destruct Hv as (Hp & Hb & Hw).
    rewrite !pull_value_interpolate by (rewrite ?length_app; lia).
    rewrite IH by done. destruct (pull_value parent s e SliceAll h); [done|].
    by apply interpolated_app.
Qed.

(** An array a pull returns can be read. *)
Lemma get_traces_readable seg s e ci h v h' :
  get_traces seg s e ci h = (inr v, h') → ∃ y, view_matrix v h' = (inr y, h').
Proof.
  intros Hg. pose proof (view_matrix_heap v h') as Hh.
  assert (∃ y, (view_matrix v h').1 = inr y) as [y Hy].
  { destruct seg as [buf|parent bad weights].
    - pose proof (pull_value_numpy buf s e ci h) as Hpull.
      unfold pull_value in Hpull. rewrite Hg in Hpull.
      cbn [get_traces] in Hg.
      unfold numpy_segment_get_traces, mbind, M_bind, load in Hg.
      unfold numpy_pull in Hpull.
      destruct (h !! buf) as [a|]; [|done]. destruct (data a) as [m|]; [|done].
      case_bool_decide; [|done]. destruct ci as [|idx]; [by eexists|].
      unfold lift in Hg. destruct (norm_indices _ _); [done|by eexists].
    - rewrite get_traces_interpolate_unfold in Hg.
      destruct (get_traces parent s e SliceAll h) as [[err|v0] h1]; [done|].
      destruct (view_matrix v0 h1).1 as [err|x]; [done|]. cbn zeta in Hg.
      destruct (interpolated _ _ _ _) as [err|y] eqn:Hy; [done|].
      injection Hg as <- <-. apply interpolated_shape in Hy as [_ <-].
      rewrite view_matrix_fresh. by eexists. }
  exists y. destruct (view_matrix v h'); simpl in *; congruence.
Qed.

(** *** Column assignment *)

Lemma length_assign_row js vs (r : list T) : length (assign_row js vs r) = length r.
Proof.
  unfold assign_row. revert vs r.
  induction js as [|j js IH]; intros [|v vs] r; cbn; try done.
  by rewrite IH, length_insert.
Qed.

Lemma assign_row_lookup_other js vs (r : list T) j :
  j ∉ js → assign_row js vs r !! j = r !! j.
Proof.
  unfold assign_row. revert vs r.
  induction js as [|j' js IH]; intros [|v vs] r Hj; cbn; try done.
  apply not_elem_of_cons in Hj as [Hne Hj].
  rewrite IH by done. by apply list_lookup_insert_ne.
Qed.

Lemma assign_row_select js vs (r : list T) :
  NoDup js → Forall (λ j, j < length r) js → length vs = length js →
  (λ j, default s_zero (assign_row js vs r !! j)) <$> js = vs.
Proof.
  unfold assign_row. revert vs r.
  induction js as [|j js IH]; intros [|v vs] r Hnd Hlt Hlen; cbn in *; try done.
  apply NoDup_cons in Hnd as [Hj Hnd]. apply Forall_cons in Hlt as [Hjr Hlt].
  f_equal.
  - fold (assign_row js vs (<[j:=v]> r)).
    rewrite assign_row_lookup_other by done.
    by rewrite list_lookup_insert_eq.
  - apply IH; [done| |lia]. eapply Forall_impl; [done|]. intros k Hk.
    by rewrite length_insert.
Qed.

Lemma norm_index_lt n i j : norm_index n i = Some j → j < n.
Proof.
  unfold norm_index. repeat case_bool_decide; intros [= <-]; lia.
Qed.

Lemma norm_indices_lt n idx js :
  norm_indices n idx = inr js → Forall (λ j, j < n) js ∧ length js = length idx.
Proof.
  unfold norm_indices. destruct (mapM _ _) as [js'|] eqn:Hm; [|done].
  intros [= <-]. apply mapM_Some in Hm. split.
  - apply Forall_forall. intros j Hj.
    apply list_elem_of_lookup in Hj as [k Hk].
    destruct (Forall2_lookup_r _ _ _ _ _ Hm Hk) as (i & _ & Hi).
    by eapply norm_index_lt.
  - symmetry. by eapply Forall2_length.
Qed.

Lemma np_matmul_shape a w product :
  np_matmul a w = inr product →
  ncols product = ncols w ∧ nrows product = nrows a ∧ matrix_wf product.
Proof.
  unfold np_matmul. case_bool_decide; [|done]. intros [= <-].
  unfold nrows, matrix_wf. cbn. rewrite length_fmap. split_and!; [done..|].
  apply Forall_fmap, Forall_forall. intros r _. cbn.
  by rewrite length_fmap, length_seq.
Qed.

(** The effect of [x[:, idx] = product] when the product has one column
    per index and the indices are distinct. *)
Lemma assign_columns_spec x items product js y :
  matrix_wf x → matrix_wf product →
  nrows product = nrows x → ncols product = length js →
  norm_indices (ncols x) items = inr js → NoDup js →
  assign_columns x (Int1D items) product = inr y →
  shape y = shape x
  ∧ select_columns js (rows y) = rows product
  ∧ ∀ j, j ∉ js → column j (rows y) = column j (rows x).
Proof.
  intros Hx Hp Hn Hk Hjs Hnd. unfold assign_columns. rewrite Hjs.
  unfold broadcast_matrix, broadcast_to.
  rewrite !bool_decide_eq_true_2 by (unfold nrows in *; auto).
  intros [= <-]. unfold shape, nrows, select_columns, column. cbn [rows ncols].
  destruct (norm_indices_lt _ _ _ Hjs) as [Hlt _].
  unfold matrix_wf, nrows in *. destruct x as [c xs], product as [k ps]. cbn in *.
  subst k. clear Hjs. split_and!.
  - rewrite length_zip_with, length_fmap. f_equal. lia.
  - rewrite list_fmap_id.
    revert xs Hx Hn. induction ps as [|q ps IH]; intros [|r xs] Hx Hn; cbn in *; try done.
    apply Forall_cons in Hx as [Hr Hx]. apply Forall_cons in Hp as [Hq Hp].
    f_equal; [|apply IH; [done..|lia]].
    apply assign_row_select; [done| |done].
    eapply Forall_impl; [done|]. intros j Hj. cbn in Hj. lia.
  - intros j Hj. rewrite list_fmap_id.
    revert xs Hx Hn. induction ps as [|q ps IH]; intros [|r xs] Hx Hn; cbn in *; try done.
    apply Forall_cons in Hx as [Hr Hx]. apply Forall_cons in Hp as [Hq Hp].
    f_equal; [|apply IH; [done..|lia]].
    by rewrite assign_row_lookup_other.
Qed.

(** *** Rectangular arrays *)

Lemma interpolated_wf h x bad weights y :
  matrix_wf x → interpolated h x bad weights = inr y → matrix_wf y.
Proof.
  intros Hx. unfold interpolated. repeat case_match; try done.
  unfold assign_columns. repeat case_match; try done.
  intros [= <-]. unfold matrix_wf in *. cbn.
  apply Forall_forall. intros r Hr.
  apply list_elem_of_lookup in Hr as [i Hi].
  apply lookup_zip_with_Some in Hi as (q & r0 & -> & _ & Hr0).
  rewrite length_assign_row.
  by eapply (Forall_lookup_1 _ _ _ _ Hx).
Qed.

Lemma pull_value_wf seg s e ci h y :
  heap_wf h → seg_valid h seg → pull_value seg s e ci h = inr y → matrix_wf y.
Proof.
  intros Hh. revert s e ci y.
  induction seg as [buf|parent IH bad weights]; intros s e ci y Hv.
  - rewrite pull_value_numpy. unfold numpy_pull.
    destruct (h !! buf) as [a|] eqn:Ha; [|done].
    pose proof (Forall_lookup_1 _ _ _ _ Hh Ha) as Hm. cbn beta in Hm.
    destruct (data a) as [m|]; [|done]. case_bool_decide; [|done].
    assert (Forall (λ r, length r = ncols m)
              (slice_rows (Z.to_nat s) (Z.to_nat e) (rows m))) as Hs.
    { unfold slice_rows. apply Forall_take, Forall_drop, Hm. }
    destruct ci as [|idx]; [by intros [= <-]|].
    destruct (norm_indices _ _) as [err|js]; [done|]. intros [= <-].
    unfold matrix_wf, select_columns. cbn.
    apply Forall_fmap, Forall_forall. intros r _. cbn. by rewrite length_fmap.
  - destruct Hv as (Hp & Hb & Hw). rewrite pull_value_interpolate by done.
    destruct (pull_value parent s e SliceAll h) as [err|x] eqn:Hx; [done|].
    intros Hy. eapply interpolated_wf; [|done]. by eapply IH.
Qed.

(** *** Shape of the answer *)

(** The interpolation segment answers the same for every channel
    selection. *)
Lemma get_traces_interpolate_any_selection parent bad weights s e ci h :
  get_traces (InterpolateBadChannelsSegment parent bad weights) s e ci h
  = get_traces (InterpolateBadChannelsSegment parent bad weights) s e SliceAll h.
Proof. reflexivity. Qed.

(** On a valid frame range a chain answers [end - start] frames; the
    leaf answers the selected channels, an interpolation segment all the
    channels of the buffer. *)
Lemma pull_value_shape seg s e ci h w m y :
  seg_valid h seg →
  h !! leaf_buffer seg = Some (Ndarray w (Float2D m)) →
  pull_value seg s e ci h = inr y →
  shape y = (Z.to_nat e - Z.to_nat s,
             match seg, ci with
             | NumpyRecordingSegment _, Indices idx => length idx
             | _, _ => ncols m
             end).
Proof.
  revert s e ci y. induction seg as [buf|parent IH bad weights]; intros s e ci y Hv Hm.
  - rewrite pull_value_numpy. cbn in Hm. rewrite Hm. cbn.
    case_bool_decide as Hrange; [|done]. unfold shape, nrows.
    destruct ci as [|idx].
    + intros [= <-]. cbn. rewrite length_slice_rows; [done|]. unfold nrows in *. lia.
    + destruct (norm_indices _ _) as [err|js] eqn:Hjs; [done|]. intros [= <-]. cbn.
      unfold select_columns. rewrite length_fmap, length_slice_rows by (unfold nrows in *; lia).
      by destruct (norm_indices_lt _ _ _ Hjs) as [_ ->].
  - destruct Hv as (Hp & Hb & Hw). rewrite pull_value_interpolate by done.
    destruct (pull_value parent s e SliceAll h) as [err|x] eqn:Hx; [done|].
    intros Hy. apply interpolated_shape in Hy as [Hc Hr].
    specialize (IH s e SliceAll x Hp Hm Hx). unfold shape in *.
    rewrite Hc, Hr. by destruct parent.
Qed.

End Pull.

(** ** Non-mutation, determinism and the interpolated columns *)

Section PullProperties.
Context {T : Type} `{!Scalar T}.

Lemma get_traces_interpolate_appends parent bad weights s e ci (h : heap T)
    res h' rp h1 :
  get_traces (InterpolateBadChannelsSegment parent bad weights) s e ci h = (res, h') →
  get_traces parent s e SliceAll h = (rp, h1) →
  ∃ new, h' = h1 ++ new.
Proof.
  rewrite get_traces_interpolate_unfold. intros Hg Hp. rewrite Hp in Hg.
  destruct rp as [err|vp]; [injection Hg as _ <-; exists []; by rewrite app_nil_r|].
  destruct (view_matrix vp h1).1 as [err|x];
    [injection Hg as _ <-; exists []; by rewrite app_nil_r|].
  cbn zeta in Hg. destruct (interpolated _ _ _ _); injection Hg as _ <-; by eexists.
Qed.

Lemma view_matrix_app v (h : heap T) ext y :
  view_matrix v h = (inr y, h) → view_matrix v (h ++ ext) = (inr y, h ++ ext).
Proof.
  unfold view_matrix, mbind, M_bind, load.
  destruct (h !! base v) as [a|] eqn:Ha; [|done].
  rewrite (lookup_app_l_Some _ _ _ _ Ha).
  destruct (data a); [|done]. unfold mret, M_ret. by intros [= <-].
Qed.

(** C2.  A pull through the interpolation segment writes no array that
    existed before the call, in particular not the buffer behind the array
    its parent returned, and not the array its parent returned in this very
    pull: the transform runs on a private copy.  Any later pull of the parent
    answers what it would have answered before. *)
Theorem get_traces_leaves_parent_untouched
    parent bad weights s e ci (h : heap T) res h' :
  seg_valid h (InterpolateBadChannelsSegment parent bad weights) →
  get_traces (InterpolateBadChannelsSegment parent bad weights) s e ci h = (res, h') →
  (∀ l a, h !! l = Some a → h' !! l = Some a)
  ∧ (∀ vp h1 x, get_traces parent s e SliceAll h = (inr vp, h1) →
       view_matrix vp h1 = (inr x, h1) → view_matrix vp h' = (inr x, h'))
  ∧ ∀ s' e' ci', pull_value parent s' e' ci' h' = pull_value parent s' e' ci' h.
Proof.
  intros (Hp & _ & _) Hg. split_and!.
  - apply get_traces_appends in Hg as [new ->].
    intros l a Hl. by apply lookup_app_l_Some.
  - intros vp h1 x Hgp Hx.
    destruct (get_traces_interpolate_appends _ _ _ _ _ _ _ _ _ _ _ Hg Hgp) as [new ->].
    by apply view_matrix_app.
  - apply get_traces_appends in Hg as [new ->].
    intros s' e' ci'. by apply pull_value_app.
Qed.

(** C9.  A second pull with the same arguments, on the store the first pull
    left, returns an array with the same contents as the first. *)
Theorem get_traces_twice_same_array seg s e ci (h : heap T) v1 h1 :
  seg_valid h seg →
  get_traces seg s e ci h = (inr v1, h1) →
  ∃ v2 h2 y,
    get_traces seg s e ci h1 = (inr v2, h2)
    ∧ view_matrix v1 h1 = (inr y, h1)
    ∧ view_matrix v2 h2 = (inr y, h2).
Proof.
  intros Hv Hg.
  destruct (get_traces_readable _ _ _ _ _ _ _ Hg) as [y Hy].
  pose proof (get_traces_appends _ _ _ _ _ _ _ Hg) as [new ->].
  pose proof (pull_value_app seg s e ci h new Hv) as Hsame.
  unfold pull_value at 2 in Hsame. rewrite Hg, Hy in Hsame. cbn in Hsame.
  unfold pull_value in Hsame.
  destruct (get_traces seg s e ci (h ++ new)) as [[err|v2] h2] eqn:Hg2; [done|].
  destruct (get_traces_readable _ _ _ _ _ _ _ Hg2) as [y2 Hy2].
  rewrite Hy2 in Hsame. cbn in Hsame. injection Hsame as ->.
  by exists v2, h2, y.
Qed.

(** C6.  The array a pull returns has the shape of the parent's traces, its
    columns at the bad-channel indices are the product of the parent's traces
    with the weights, every other column is the parent's. *)
Theorem get_traces_interpolates_bad_columns
    parent bad weights s e ci (h : heap T) v h' x wflag wm bflag items js :
  heap_wf h → seg_valid h parent →
  h !! weights = Some (Ndarray wflag (Float2D wm)) →
  h !! bad = Some (Ndarray bflag (Int1D items)) →
  pull_value parent s e SliceAll h = inr x →
  norm_indices (ncols x) items = inr js → NoDup js →
  ncols wm = length js →
  get_traces (InterpolateBadChannelsSegment parent bad weights) s e ci h = (inr v, h') →
  ∃ y product,
    view_matrix v h' = (inr y, h')
    ∧ np_matmul x wm = inr product
    ∧ shape y = shape x
    ∧ select_columns js (rows y) = rows product
    ∧ ∀ j, j ∉ js → column j (rows y) = column j (rows x).
Proof.
  intros Hh Hp Hw Hb Hx Hjs Hnd Hk Hg.
  destruct (get_traces_readable _ _ _ _ _ _ _ Hg) as [y Hy].
  pose proof (pull_value_interpolate parent bad weights s e ci h) as Hpull.
  unfold pull_value at 1 in Hpull. rewrite Hg, Hy, Hx in Hpull. cbn [fst] in Hpull.
  specialize (Hpull (lookup_lt_Some _ _ _ Hb) (lookup_lt_Some _ _ _ Hw)).
  symmetry in Hpull. unfold interpolated in Hpull. rewrite Hw, Hb in Hpull.
  cbn [data] in Hpull.
  destruct (np_matmul x wm) as [err|product] eqn:Hprod; [done|].
  apply np_matmul_shape in Hprod as (Hc & Hr & Hwf).
  exists y, product. split_and!; [done..| | |].
  all: eapply assign_columns_spec in Hpull as (Hs & Hsel & Hoth);
    eauto using pull_value_wf; congruence.
Qed.

End PullProperties.

(** ** Construction of the stage *)

Section StageProperties.
Context {T : Type} `{!Scalar T}.
Variable get_kriging_bad_channel_weights :
  matrix (T:=T) → array_data (T:=T) → np_scalar T → T → exn + matrix (T:=T).

Local Abbreviation init := (__init__ get_kriging_bad_channel_weights).

Lemma check_inputs_run recording bad (h : heap T) :
  check_inputs recording bad h =
  (if negb (is_ndarray bad) then inl TypeError
   else match contact_vector recording with
        | None => inl ValueError
        | Some probe =>
            if negb (String.eqb (si_units probe) "um") then inl NotImplementedError
            else inr ()
        end, h).
Proof.
  unfold check_inputs. destruct (is_ndarray bad); [|done]. cbn [negb].
  unfold get_probe, mbind, M_bind.
  destruct (contact_vector recording) as [probe|]; [|done].
  rewrite bool_decide_eq_false_2 by done. unfold mret, M_ret.
  by destruct (negb _).
Qed.

Lemma init_check_failed recording bad sigma_um p (h : heap T) err :
  (check_inputs recording bad h).1 = inl err →
  init recording bad sigma_um p h = (inl err, h).
Proof.
  intros Hc. unfold __init__. unfold mbind at 1, M_bind at 1.
  rewrite check_inputs_run in *. cbn [fst] in Hc. by rewrite Hc.
Qed.

(** C5.  The three validations of the constructor, in the order the code
    makes them: a value that is not an ndarray raises TypeError, a recording
    without probe ValueError, a probe whose unit is not "um"
    NotImplementedError.  Whenever one of the three conditions holds the
    constructor returns an exception and no stage, and the store is the one it
    was called in: no weights were allocated, no segment was wrapped and the
    index array keeps its flag. *)
Theorem init_validation_aborts recording bad sigma_um p (h : heap T) :
  (is_ndarray bad = false →
     init recording bad sigma_um p h = (inl TypeError, h))
  ∧ (is_ndarray bad = true → contact_vector recording = None →
     init recording bad sigma_um p h = (inl ValueError, h))
  ∧ (∀ probe, is_ndarray bad = true → contact_vector recording = Some probe →
     si_units probe ≠ "um" →
     init recording bad sigma_um p h = (inl NotImplementedError, h))
  ∧ (is_ndarray bad = false
     ∨ contact_vector recording = None
     ∨ (∃ probe, contact_vector recording = Some probe ∧ si_units probe ≠ "um") →
     ∃ err, init recording bad sigma_um p h = (inl err, h)
            ∧ (err = TypeError ∨ err = ValueError ∨ err = NotImplementedError)).
Proof.
  split_and!.
  - intros Ha. apply init_check_failed. by rewrite check_inputs_run, Ha.
  - intros Ha Hc. apply init_check_failed. by rewrite check_inputs_run, Ha, Hc.
  - intros probe Ha Hc Hu. apply String.eqb_neq in Hu.
    apply init_check_failed. by rewrite check_inputs_run, Ha, Hc, Hu.
  - intros Hfail.
    assert (∃ err, (check_inputs recording bad h).1 = inl err
                   ∧ (err = TypeError ∨ err = ValueError ∨ err = NotImplementedError))
      as (err & Hc & Herr); [|exists err; split; [by apply init_check_failed|done]].
    rewrite check_inputs_run. cbn [fst].
    destruct (is_ndarray bad); cbn [negb]; [|eauto].
    destruct (contact_vector recording) as [probe|]; [|eauto].
    destruct Hfail as [?|[?|(probe' & [= <-] & Hu)]]; [done..|].
    apply String.eqb_neq in Hu. rewrite Hu. cbn [negb]. eauto 6.
Qed.

(** What a successful construction did. *)
Lemma init_success recording bad sigma_um p (h : heap T) stage h' :
  init recording bad sigma_um p h = (inr stage, h') →
  ∃ b probe a sigma w,
    bad = PyNdarray b
    ∧ contact_vector recording = Some probe
    ∧ si_units probe = "um"
    ∧ h !! b = Some a
    ∧ match sigma_um with
      | Some s => sigma = s
      | None => ∃ y, y_coordinates (contact_positions probe) = inr y
                     ∧ sigma = scipy_stats_mode (np_diff (np_unique y))
      end
    ∧ get_kriging_bad_channel_weights (contact_positions probe) (data a) sigma p = inr w
    ∧ h' = <[b := Ndarray false (data a)]> (h ++ [Ndarray true (Float2D w)])
    ∧ stage = {|
        bad_channel_indexes := b;
        recording_segments :=
          (λ parent, InterpolateBadChannelsSegment parent b (length h))
            <$> _recording_segments recording;
        _kwargs := {| kw_recording := recording; kw_bad_channel_indexes := b;
                      kw_p := p; kw_sigma_um := sigma |};
      |}.
Proof.
  unfold __init__. unfold mbind at 1, M_bind at 1. rewrite check_inputs_run.
  destruct bad as [| | |b]; try done. cbn [is_ndarray negb].
  destruct (contact_vector recording) as [probe|] eqn:Hc; [|done].
  destruct (negb _) eqn:Hu; [done|]. apply negb_false_iff, String.eqb_eq in Hu.
  unfold ndarray_of, get_probe. rewrite Hc.
  unfold mbind at 1 2, M_bind at 1 2, mret at 1 2, M_ret at 1 2.
  unfold mbind at 1, M_bind at 1.
  assert (∃ r, match sigma_um with
               | Some s => mret s
               | None => get_recommended_sigma_um recording (contact_positions probe)
               end h = (r, h)
          ∧ ∀ sigma, r = inr sigma →
              match sigma_um with
              | Some s => sigma = s
              | None => ∃ y, y_coordinates (contact_positions probe) = inr y
                             ∧ sigma = scipy_stats_mode (np_diff (np_unique y))
              end) as (r & -> & Hsigma).
  { destruct sigma_um as [s|].
    - eexists. split; [done|]. by intros sigma [= <-].
    - unfold get_recommended_sigma_um, mbind, M_bind, lift.
      destruct (y_coordinates _) as [err|y]; eexists; (split; [done|]); [done|].
      intros sigma [= <-]. by exists y. }
  destruct r as [err|sigma]; [done|]. specialize (Hsigma sigma eq_refl).
  unfold calculate_weights_and_lock_channel_idxs.
  unfold mbind, M_bind, load, lift, alloc, np_setflags_readonly, store, mret, M_ret.
  destruct (h !! b) as [a|] eqn:Ha; [|done].
  destruct (get_kriging_bad_channel_weights _ _ _ _) as [err|w] eqn:Hw; [done|].
  unfold mbind, M_bind, load. rewrite (lookup_app_l_Some _ _ _ _ Ha).
  intros [= <- <-]. by exists b, probe, a, sigma, w.
Qed.

Lemma np_unique_replicate n (d : T) : np_unique (replicate (S n) d) = [d].
Proof.
  induction n as [|n IH]; [done|].
  change (np_unique (replicate (S (S n)) d))
    with (insert_unique d (np_unique (replicate (S n) d))).
  rewrite IH. cbn. by rewrite decide_True.
Qed.

Lemma scipy_stats_mode_replicate n (d : T) :
  scipy_stats_mode (replicate (S n) d) = Num d.
Proof. unfold scipy_stats_mode. by rewrite np_unique_replicate. Qed.

(** C4.  Constructed with [sigma_um=None], the stage records as [sigma_um]
    the mode of the differences between consecutive sorted distinct
    y-coordinates of the contacts; when all these differences are the same
    pitch [d] (20 for a probe with a regular pitch of 20 micrometres), it
    records [d]. *)
Theorem init_default_sigma_is_mode_of_y_gaps
    recording bad p (h : heap T) stage h' probe :
  contact_vector recording = Some probe →
  init recording bad None p h = (inr stage, h') →
  ∃ y, y_coordinates (contact_positions probe) = inr y
       ∧ kw_sigma_um (_kwargs stage) = scipy_stats_mode (np_diff (np_unique y))
       ∧ ∀ d n, np_diff (np_unique y) = replicate (S n) d →
                kw_sigma_um (_kwargs stage) = Num d.
Proof.
  intros Hc Hinit.
  apply init_success in Hinit
    as (b & probe' & a & sigma & w & _ & Hc' & _ & _ & (y & Hy & ->) & _ & _ & ->).
  assert (probe' = probe) as -> by congruence.
  exists y. cbn. split_and!; [done..|].
  intros d n ->. apply scipy_stats_mode_replicate.
Qed.

Lemma run_operation_keeps_readonly op (h : heap T) b d :
  h !! b = Some (Ndarray false d) →
  run_operation op h !! b = Some (Ndarray false d).
Proof.
  intros Hb. destruct op as [l i x|v idx val|a|v|l|seg s e ci]; cbn [run_operation].
  - unfold np_setitem_int, mbind, M_bind, load, store, raise.
    destruct (h !! l) as [a|] eqn:Hl; [|done].
    destruct (data a) as [|items]; [done|].
    destruct (writeable a) eqn:Hw; [|done].
    destruct (norm_index _ _); [|done]. cbn.
    rewrite list_lookup_insert_ne; [done|]. intros ->.
    rewrite Hb in Hl. injection Hl as <-. done.
  - unfold np_setitem_cols, mbind, M_bind, load, store, raise, lift.
    destruct (h !! base v) as [a|] eqn:Hl; [|done].
    destruct (data a) as [m|]; [|done].
    destruct (writeable a) eqn:Hw; [|done].
    destruct (h !! idx); [|done].
    destruct (assign_columns _ _ _); [done|]. cbn.
    rewrite list_lookup_insert_ne; [done|]. intros Heq.
    rewrite Heq, Hb in Hl. injection Hl as <-. done.
  - by apply lookup_app_l_Some.
  - rewrite np_copy_run. destruct (view_matrix v h).1; [done|].
    by apply lookup_app_l_Some.
  - unfold np_setflags_readonly, mbind, M_bind, load, store.
    destruct (h !! l) as [a|] eqn:Hl; [|done]. cbn.
    destruct (decide (l = b)) as [->|Hne]; [|by rewrite list_lookup_insert_ne].
    rewrite Hb in Hl. injection Hl as <-.
    rewrite list_lookup_insert_eq; [done|]. by eapply lookup_lt_Some.
  - destruct (get_traces seg s e ci h) as [res h1] eqn:Hg.
    apply get_traces_appends in Hg as [new ->]. by apply lookup_app_l_Some.
Qed.

(** C10.  After a successful construction the caller's index array has its
    writeable flag cleared and its contents unchanged, every segment of the
    stage refers to that very array, and whatever item assignments,
    allocations, copies and pulls run afterwards, the array keeps the contents
    it had: an assignment to it is refused. *)
Theorem init_locks_bad_channel_indexes
    recording bad sigma_um p (h : heap T) stage h' :
  init recording bad sigma_um p h = (inr stage, h') →
  ∃ b a,
    bad = PyNdarray b
    ∧ h !! b = Some a
    ∧ h' !! b = Some (Ndarray false (data a))
    ∧ bad_channel_indexes stage = b
    ∧ Forall (λ seg, ∃ parent weights,
                seg = InterpolateBadChannelsSegment parent b weights)
        (recording_segments stage)
    ∧ (∀ i x, ∃ err, np_setitem_int b i x h' = (inl err, h'))
    ∧ (∀ v idx val, base v = b → ∃ err, np_setitem_cols v idx val h' = (inl err, h'))
    ∧ ∀ ops, run_operations ops h' !! b = Some (Ndarray false (data a)).
Proof.
  intros Hinit.
  apply init_success in Hinit
    as (b & probe & a & sigma & w & -> & _ & _ & Ha & _ & _ & -> & ->).
  exists b, a. cbn [bad_channel_indexes recording_segments].
  assert ((<[b:=Ndarray false (data a)]> (h ++ [Ndarray true (Float2D w)])) !! b
          = Some (Ndarray false (data a))) as Hb.
  { apply list_lookup_insert_eq. rewrite length_app.
    apply lookup_lt_Some in Ha. lia. }
  split_and!; [done..| | | |].
  - apply Forall_fmap, Forall_forall. intros parent _. cbn. by eexists _, _.
  - intros i x. unfold np_setitem_int, mbind, M_bind, load. rewrite Hb. cbn.
    destruct (data a); by eexists.
  - intros v idx val Hv. unfold np_setitem_cols, mbind, M_bind, load.
    rewrite Hv, Hb. cbn. destruct (data a); by eexists.
  - intros ops. revert Hb. generalize (<[b:=Ndarray false (data a)]> (h ++ [Ndarray true (Float2D w)])).
    induction ops as [|op ops IH]; intros h0 Hb; [done|].
    cbn. apply IH. by apply run_operation_keeps_readonly.
Qed.

End StageProperties.

(** ** Probes with a regular pitch *)

Section RegularPitch.

Lemma insert_unique_elem (x y : Z) l : y ∈ insert_unique x l ↔ y = x ∨ y ∈ l.
Proof.
  induction l as [|z l IH]; cbn.
  - rewrite list_elem_of_singleton, elem_of_nil. tauto.
  - destruct (decide (x = z)) as [->|Hne].
    + rewrite elem_of_cons. tauto.
    + destruct (x <=? z)%Z; rewrite !elem_of_cons, ?IH; tauto.
Qed.

Lemma insert_unique_sorted (x : Z) l :
  StronglySorted Z.lt l → StronglySorted Z.lt (insert_unique x l).
Proof.
  induction 1 as [|z l Hl IH Hz]; cbn; [repeat constructor|].
  destruct (decide (x = z)) as [->|Hne]; [by constructor|].
  destruct (Z.leb_spec x z) as [Hle|Hlt].
  - constructor; [by constructor|]. constructor; [lia|].
    eapply Forall_impl; [done|]. cbn. lia.
  - constructor; [done|]. apply Forall_forall. intros y [->|Hy]%insert_unique_elem; [done|].
    by eapply (proj1 (Forall_forall _ _) Hz).
Qed.

Lemma np_unique_elem (y : Z) l : y ∈ np_unique l ↔ y ∈ l.
Proof.
  induction l as [|x l IH]; [done|]. cbn.
  rewrite insert_unique_elem, elem_of_cons, IH. tauto.
Qed.

Lemma np_unique_sorted (l : list Z) : StronglySorted Z.lt (np_unique l).
Proof.
  induction l as [|x l IH]; [constructor|]. by apply insert_unique_sorted.
Qed.

Lemma StronglySorted_lt_NoDup (l : list Z) : StronglySorted Z.lt l → NoDup l.
Proof.
  induction 1 as [|z l Hl IH Hz]; constructor; [|done].
  intros Hin. pose proof (proj1 (Forall_forall _ _) Hz z Hin). lia.
Qed.

(** [np.unique] is determined by the set of values. *)
Lemma np_unique_sorted_eq (l k : list Z) :
  StronglySorted Z.lt k → (∀ y, y ∈ l ↔ y ∈ k) → np_unique l = k.
Proof.
  intros Hk Hsame. apply (StronglySorted_unique_strong Z.lt).
  - intros x1 x2 _ _. lia.
  - apply np_unique_sorted.
  - done.
  - apply NoDup_Permutation; [apply StronglySorted_lt_NoDup, np_unique_sorted
                             |by apply StronglySorted_lt_NoDup|].
    intros y. by rewrite np_unique_elem.
Qed.

Lemma row_positions_sorted y0 d n :
  (0 < d)%Z → StronglySorted Z.lt (row_positions y0 d n).
Proof.
  intros Hd. unfold row_positions.
  apply (StronglySorted_fmap _ lt).
  - intros i j Hij. nia.
  - generalize 0. induction n as [|n IH]; intros k; cbn; constructor; [apply IH|].
    apply Forall_forall. intros j [Hj _]%elem_of_seq. lia.
Qed.

Lemma np_diff_row_positions y0 d n :
  np_diff (row_positions y0 d (S n)) = replicate n d.
Proof.
  unfold row_positions, np_diff. generalize 0.
  induction n as [|n IH]; intros k; [done|].
  cbn [seq fmap list_fmap tail zip_with replicate]. f_equal.
  - cbn. lia.
  - apply (IH (S k)).
Qed.

(** On a probe whose contacts sit, in any order and number, on rows
    [y0, y0 + d, ..., y0 + (n+1) d], the mode of the gaps between consecutive
    distinct y-coordinates is the pitch [d]. *)
Lemma regular_pitch_mode (y : list Z) y0 d n :
  (0 < d)%Z →
  (∀ v, v ∈ y ↔ v ∈ row_positions y0 d (S (S n))) →
  np_diff (np_unique y) = replicate (S n) d
  ∧ scipy_stats_mode (np_diff (np_unique y)) = Num d.
Proof.
  intros Hd Hrows.
  rewrite (np_unique_sorted_eq y (row_positions y0 d (S (S n))))
    by (by apply row_positions_sorted || done).
  rewrite np_diff_row_positions. split; [done|].
  apply scipy_stats_mode_replicate.
Qed.

End RegularPitch.

(** ** Interpolation weights *)

Section KrigingFacts.
Local Open Scope R_scope.

Lemma Rsum_app l1 l2 : Rsum (l1 ++ l2) = Rsum l1 + Rsum l2.
Proof. unfold Rsum. induction l1 as [|x l1 IH]; cbn; lra. Qed.

Lemma Rsum_div (f : nat → R) (t : R) (l : list nat) :
  Rsum ((λ c, f c / t) <$> l) = Rsum (f <$> l) / t.
Proof. unfold Rsum. induction l as [|c l IH]; cbn; lra. Qed.

Lemma Rsum_nonneg (f : nat → R) (l : list nat) :
  (∀ c, 0 <= f c) → 0 <= Rsum (f <$> l).
Proof.
  intros Hf. unfold Rsum. induction l as [|c l IH]; cbn; [lra|].
  specialize (Hf c). lra.
Qed.

Lemma Rsum_pos (f : nat → R) (l : list nat) g :
  (∀ c, 0 <= f c) → g ∈ l → 0 < f g → 0 < Rsum (f <$> l).
Proof.
  intros Hf Hg Hpos. induction l as [|c l IH]; [by apply elem_of_nil in Hg|].
  pose proof (Rsum_nonneg f l Hf) as Hl. pose proof (Hf c) as Hc.
  unfold Rsum in *. cbn.
  apply elem_of_cons in Hg as [->|Hg]; [lra|]. specialize (IH Hg). lra.
Qed.

(** Summing over all channels an entry that vanishes on the bad ones is
    summing over the good ones. *)
Lemma Rsum_good (f : nat → R) (bad : list nat) (l : list nat) :
  Rsum ((λ c, if is_bad bad c then 0 else f c) <$> l)
  = Rsum (f <$> filter (λ c, c ∉ bad) l).
Proof.
  unfold Rsum. induction l as [|c l IH]; [done|].
  rewrite filter_cons, fmap_cons. cbn [foldr]. unfold is_bad at 1.
  case_bool_decide as Hc.
  - rewrite decide_False by auto. lra.
  - rewrite decide_True by done. cbn. lra.
Qed.

Lemma weight_total_good positions bad sigma p b :
  weight_total positions bad sigma p b
  = Rsum ((λ g, kernel sigma p (positions !!! b) (positions !!! g))
            <$> good_channels (length positions) bad).
Proof. unfold weight_total, raw_weight, good_channels. apply Rsum_good. Qed.

Lemma kernel_pos sigma p b g : 0 < kernel sigma p b g.
Proof. apply exp_pos. Qed.

Lemma weight_total_pos positions bad sigma p b g :
  (g < length positions)%nat → g ∉ bad →
  0 < weight_total positions bad sigma p b.
Proof.
  intros Hg Hgood. rewrite weight_total_good.
  apply (Rsum_pos (λ g, kernel sigma p (positions !!! b) (positions !!! g)) _ g).
  - intros c. apply Rlt_le, kernel_pos.
  - unfold good_channels. apply list_elem_of_filter. split; [done|].
    apply elem_of_seq. lia.
  - apply kernel_pos.
Qed.

Lemma entry_weights positions bad sigma p c j b :
  (c < length positions)%nat → bad !! j = Some b →
  entry (get_kriging_bad_channel_weights positions bad sigma p) c j
  = raw_weight positions bad sigma p b c / weight_total positions bad sigma p b.
Proof.
  intros Hc Hj. unfold entry, get_kriging_bad_channel_weights. cbn [rows].
  rewrite list_lookup_fmap, lookup_seq_lt by done. cbn.
  by rewrite list_lookup_fmap, Hj.
Qed.

(** C3.  The weight matrix has one row per channel and one column per bad
    channel.  For every bad channel the weights of its column sum to 1 over
    the good channels, hence lie within 1e-6 of 1; the weight of a good
    channel is its kernel value divided by the sum of the kernel values of
    all good channels; the row of a bad channel is zero.  The probe must have
    a good channel; [sigma_um] and [p] are positive, the range in which
    division and power over the reals are the arithmetic of the code. *)
Theorem kriging_weights_sum_to_one positions bad sigma p :
  0 < sigma → 0 < p →
  (∃ g, (g < length positions)%nat ∧ g ∉ bad) →
  let W := get_kriging_bad_channel_weights positions bad sigma p in
  let good := good_channels (length positions) bad in
  shape W = (length positions, length bad)
  ∧ matrix_wf W
  ∧ (∀ j b, bad !! j = Some b →
       Rsum ((λ g, entry W g j) <$> good) = 1
       ∧ Rabs (Rsum ((λ g, entry W g j) <$> good) - 1) <= 1 / 1000000
       ∧ ∀ g, g ∈ good →
           entry W g j
           = kernel sigma p (positions !!! b) (positions !!! g)
             / Rsum ((λ g', kernel sigma p (positions !!! b) (positions !!! g'))
                       <$> good))
  ∧ ∀ c j, c ∈ bad → entry W c j = 0.
Proof.
  intros _ _ (g0 & Hg0 & Hgood0) W good. split_and!.
  - unfold shape, nrows, W. cbn. by rewrite length_fmap, length_seq.
  - unfold matrix_wf, W. cbn. apply Forall_fmap, Forall_forall. intros c _.
    cbn. by rewrite length_fmap.
  - intros j b Hj.
    assert (∀ g, g ∈ good → entry W g j
              = kernel sigma p (positions !!! b) (positions !!! g)
                / weight_total positions bad sigma p b) as Hentry.
    { intros g Hg. unfold good, good_channels in Hg.
      apply list_elem_of_filter in Hg as [Hnb Hg]. apply elem_of_seq in Hg.
      unfold W. rewrite (entry_weights _ _ _ _ _ _ b) by (done || lia).
      unfold raw_weight, is_bad. by rewrite bool_decide_eq_false_2. }
    assert (Rsum ((λ g, entry W g j) <$> good) = 1) as Hsum.
    { rewrite (list_fmap_ext (λ g, entry W g j)
                 (λ g, kernel sigma p (positions !!! b) (positions !!! g)
                       / weight_total positions bad sigma p b) good)
        by (intros i g Hi; apply Hentry, list_elem_of_lookup; eauto).
      rewrite (Rsum_div (λ g, kernel sigma p (positions !!! b) (positions !!! g))).
      unfold good. rewrite <- weight_total_good.
      pose proof (weight_total_pos positions bad sigma p b g0 Hg0 Hgood0).
      field. lra. }
    split_and!; [done| |].
    + rewrite Hsum. replace (1 - 1) with 0 by lra. rewrite Rabs_R0. lra.
    + intros g Hg. rewrite (Hentry g Hg). by rewrite weight_total_good.
  - intros c j Hc. unfold entry, W, get_kriging_bad_channel_weights. cbn [rows].
    rewrite list_lookup_fmap.
    destruct (seq 0 (length positions) !! c) as [c'|] eqn:Hseq; [|done].
    apply lookup_seq in Hseq as [-> _]. cbn. rewrite list_lookup_fmap.
    destruct (bad !! j) as [b|]; [|done]. cbn.
    unfold raw_weight, is_bad. rewrite bool_decide_eq_true_2 by done. lra.
Qed.

End KrigingFacts.

(** ** Dependency resolution *)

Section ExtensionFacts.
Context {params data : Type}.
Variable registry : gmap string (ExtensionClass (params:=params)).
Variable algorithm :
  string → params → gmap string (ExtensionResult (params:=params) (data:=data))
  → option data.

Local Abbreviation cache_t :=
  (gmap string (ExtensionResult (params:=params) (data:=data))).
Implicit Types (cache c : cache_t)
  (rec : string → params → cache_t → analyzer_error + cache_t).

Lemma grows_by_default_refl frozen cache : grows_by_default registry frozen cache cache.
Proof. split_and!; auto. Qed.

Lemma grows_by_default_trans frozen c1 c2 c3 :
  grows_by_default registry frozen c1 c2 → grows_by_default registry frozen c2 c3 →
  grows_by_default registry frozen c1 c3.
Proof.
  intros (K1 & F1 & N1) (K2 & F2 & N2). split_and!.
  - auto.
  - intros k Hk. by rewrite F2, F1.
  - intros k Hk. destruct (N1 k Hk) as [Hn|(cls & d & Hr & Hd)]; [auto|].
    right. exists cls, d. auto.
Qed.

Lemma split_bar_nonempty s : split_bar s ≠ [].
Proof.
  destruct s as [|c s]; [done|]. cbn.
  destruct (Ascii.eqb c "|"); [done|]. by destruct (split_bar s).
Qed.

Lemma split_bar_plain s : has_bar s = false → split_bar s = [s].
Proof.
  induction s as [|c s IH]; [done|]. cbn.
  destruct (Ascii.eqb c "|"); [done|]. cbn. by intros ->%IH.
Qed.

Lemma existsb_cached_false (cache : cache_t) alternatives a :
  existsb (cached cache) alternatives = false → a ∈ alternatives →
  cache !! a = None.
Proof.
  intros Hex Ha. apply eq_None_not_Some. intros Hsome.
  assert (existsb (cached cache) alternatives = true) as Ht; [|congruence].
  apply existsb_exists. exists a. split; [by apply list_elem_of_In|].
  by apply bool_decide_eq_true_2.
Qed.

Lemma existsb_cached_true (cache : cache_t) alternatives :
  existsb (cached cache) alternatives = true →
  ∃ a, a ∈ alternatives ∧ is_Some (cache !! a).
Proof.
  intros (a & Ha & Hc)%existsb_exists. exists a.
  split; [by apply list_elem_of_In|]. by apply bool_decide_eq_true_1 in Hc.
Qed.

(** The rule of one resolution step. *)
Lemma resolve_dependency_spec frozen rec dep cache cache' :
  compute_spec registry frozen rec →
  resolve_dependency registry rec dep cache = inr cache' →
  grows_by_default registry frozen cache cache'
  ∧ (∃ a, a ∈ split_bar dep ∧ is_Some (cache' !! a))
  ∧ if existsb (cached cache) (split_bar dep) then cache' = cache
    else default_entry registry cache' (default dep (head (split_bar dep))).
Proof.
  intros Hrec. unfold resolve_dependency. cbn zeta.
  destruct (existsb (cached cache) (split_bar dep)) eqn:Hex.
  - intros [= <-]. split_and!; [apply grows_by_default_refl| |].
    + by apply existsb_cached_true.
    + done.
  - pose proof (split_bar_nonempty dep) as Hne.
    destruct (split_bar dep) as [|first rest] eqn:Hs; [congruence|]. cbn.
    destruct (registry !! first) as [cls|] eqn:Hr; [|done].
    intros (Hnf & Hk & Hf & Hn & d & Hd)%Hrec.
    assert (cache !! first = None) as Hfirst.
    { eapply existsb_cached_false; [done|]. apply elem_of_cons. by left. }
    assert (default_entry registry cache' first) as Hde by (by exists cls, d).
    split_and!; [split_and!| |done].
    + intros k v Hv. apply Hk; [|done]. intros ->. congruence.
    + done.
    + intros k Hnone. destruct (decide (k = first)) as [->|Hne']; [by right|auto].
    + exists first. split; [apply elem_of_cons; by left|by rewrite Hd].
Qed.

Lemma resolve_dependencies_error rec deps err :
  foldl (λ (acc : analyzer_error + cache_t) dependency_name,
           match acc with
           | inl err => inl err
           | inr c => resolve_dependency registry rec dependency_name c
           end) (inl err) deps = inl err.
Proof. by induction deps. Qed.

Lemma resolve_dependencies_cons rec dep deps cache :
  resolve_dependencies registry rec (dep :: deps) cache =
  match resolve_dependency registry rec dep cache with
  | inl err => inl err
  | inr c => resolve_dependencies registry rec deps c
  end.
Proof.
  unfold resolve_dependencies. cbn [foldl].
  destruct (resolve_dependency registry rec dep cache); [|done].
  apply resolve_dependencies_error.
Qed.

Lemma resolve_dependencies_spec frozen rec deps cache cache' :
  compute_spec registry frozen rec →
  resolve_dependencies registry rec deps cache = inr cache' →
  grows_by_default registry frozen cache cache'
  ∧ (∀ dep, dep ∈ deps → ∃ a, a ∈ split_bar dep ∧ is_Some (cache' !! a))
  ∧ (∀ D, D ∈ deps → has_bar D = false → cache !! D = None →
       default_entry registry cache' D).
Proof.
  intros Hrec. revert cache. induction deps as [|dep deps IH]; intros cache.
  - intros [= <-]. split_and!; [apply grows_by_default_refl|..];
      intros ? []%elem_of_nil.
  - rewrite resolve_dependencies_cons.
    destruct (resolve_dependency registry rec dep cache) as [err|c] eqn:Hstep; [done|].
    intros Hrest.
    destruct (resolve_dependency_spec _ _ _ _ _ Hrec Hstep) as (Hg1 & Hsat & Hrule).
    destruct (IH _ Hrest) as (Hg2 & Hall & Hplain).
    pose proof (grows_by_default_trans _ _ _ _ Hg1 Hg2) as Hg. split_and!; [done| |].
    + intros dep' [->|Hin]%elem_of_cons; [|auto].
      destruct Hsat as (a & Ha & [v Hv]). exists a. split; [done|].
      destruct Hg2 as (Hk & _). rewrite (Hk _ _ Hv). by eexists.
    + intros D HD Hbar Hnone.
      assert (c !! D = None ∨ default_entry registry c D) as [Hc|Hc].
      { destruct Hg1 as (_ & _ & Hn). auto. }
      * apply elem_of_cons in HD as [->|HD]; [|auto].
        rewrite (split_bar_plain _ Hbar) in Hrule. cbn in Hrule.
        unfold cached in Hrule. rewrite bool_decide_eq_false_2 in Hrule
          by (rewrite Hnone; by intros [? ?]).
        destruct Hrule as (cls & d & _ & Hd). congruence.
      * destruct Hc as (cls & d & Hr & Hd). exists cls, d. split; [done|].
        destruct Hg2 as (Hk & _). auto.
Qed.

Lemma compute_with_spec fuel visiting :
  compute_spec registry visiting (compute_with registry algorithm fuel visiting).
Proof.
  revert visiting. induction fuel as [|fuel IH]; intros visiting name ps cache cache'; [done|].
  cbn [compute_with].
  destruct (registry !! name) as [cls|] eqn:Hr; [|done].
  destruct (decide (name ∈ visiting)) as [|Hnv]; [done|].
  destruct (resolve_dependencies _ _ _ _) as [err|cache1] eqn:Hdeps; [done|].
  destruct (algorithm name ps cache1) as [d|]; [|done]. intros [= <-].
  destruct (resolve_dependencies_spec _ _ _ _ _ (IH _) Hdeps) as ((Hk & Hf & Hn) & _ & _).
  split_and!; [done|..].
  - intros k v Hne Hv. rewrite lookup_insert_ne by done. auto.
  - intros k Hkv. rewrite lookup_insert_ne by (intros ->; done).
    apply Hf. apply elem_of_union. by right.
  - intros k Hne Hnone. rewrite lookup_insert_ne by done.
    destruct (Hn k Hnone) as [?|(cls' & d' & Hr' & Hd')]; [by left|right].
    exists cls', d'. by rewrite lookup_insert_ne.
  - exists d. apply lookup_insert_eq.
Qed.

Lemma resolve_dependencies_fuel rec deps cache :
  (∀ name ps c, rec name ps c ≠ inl OutOfFuel) →
  resolve_dependencies registry rec deps cache ≠ inl OutOfFuel.
Proof.
  intros Hrec. revert cache. induction deps as [|dep deps IH]; intros cache; [done|].
  rewrite resolve_dependencies_cons.
  destruct (resolve_dependency registry rec dep cache) as [err|c] eqn:Hstep; [|apply IH].
  unfold resolve_dependency in Hstep. cbn zeta in Hstep.
  destruct (existsb _ _); [done|]. destruct (registry !! _); [|congruence].
  intros [= ->]. by eapply Hrec.
Qed.

(** The walk never runs out of fuel: a name under computation is in the
    registry and is entered once. *)
Lemma compute_with_fuel fuel visiting name ps cache :
  visiting ⊆ dom registry → size registry < fuel + size visiting →
  compute_with registry algorithm fuel visiting name ps cache ≠ inl OutOfFuel.
Proof.
  revert visiting name ps cache.
  induction fuel as [|fuel IH]; intros visiting name ps cache Hsub Hsize.
  - apply subseteq_size in Hsub. rewrite size_dom in Hsub. lia.
  - cbn [compute_with].
    destruct (registry !! name) as [cls|] eqn:Hr; [|done].
    destruct (decide (name ∈ visiting)) as [|Hnv]; [done|].
    destruct (resolve_dependencies _ _ _ _) as [err|cache1] eqn:Hdeps.
    + intros [= ->]. revert Hdeps. apply resolve_dependencies_fuel.
      intros name' ps' c. apply IH.
      * apply union_subseteq. split; [|done].
        apply singleton_subseteq_l, elem_of_dom. by eexists.
      * rewrite size_union by (apply disjoint_singleton_l; done).
        rewrite size_singleton. lia.
    + by destruct (algorithm name ps cache1).
Qed.

Lemma compute_terminates name ps cache :
  compute registry algorithm name ps cache ≠ inl OutOfFuel.
Proof.
  apply compute_with_fuel; [apply empty_subseteq|]. rewrite size_empty. lia.
Qed.

(** C7.  After a successful [compute] of [E], every plain dependency of [E]
    that was not cached is cached with the default parameters of its class,
    and every dependency has a cached alternative.  A dependency name is
    resolved by this rule: nothing is computed when one of its alternatives
    is cached, otherwise its first alternative is computed with default
    parameters. *)
Theorem compute_caches_dependencies E ps cache cache' cls :
  registry !! E = Some cls →
  compute registry algorithm E ps cache = inr cache' →
  (∀ D, D ∈ depend_on cls → has_bar D = false → cache !! D = None →
     default_entry registry cache' D)
  ∧ (∀ dep, dep ∈ depend_on cls → ∃ a, a ∈ split_bar dep ∧ is_Some (cache' !! a))
  ∧ ∀ fuel visiting dep c c',
      resolve_dependency registry
        (compute_with registry algorithm fuel visiting) dep c = inr c' →
      if existsb (cached c) (split_bar dep) then c' = c
      else default_entry registry c' (default dep (head (split_bar dep))).
Proof.
  intros Hr. unfold compute. cbn [compute_with]. rewrite Hr.
  rewrite decide_False by apply not_elem_of_empty.
  destruct (resolve_dependencies _ _ _ _) as [err|cache1] eqn:Hdeps; [done|].
  destruct (algorithm E ps cache1) as [d|]; [|done]. intros [= <-].
  destruct (resolve_dependencies_spec _ _ _ _ _ (compute_with_spec _ _) Hdeps)
    as ((_ & Hf & _) & Hall & Hplain).
  split_and!.
  - intros D HD Hbar Hnone.
    destruct (Hplain D HD Hbar Hnone) as (clsD & dD & HrD & HdD).
    assert (D ≠ E) as Hne.
    { intros ->. rewrite Hf in HdD; [congruence|].
      apply elem_of_union. left. by apply elem_of_singleton. }
    exists clsD, dD. by rewrite lookup_insert_ne.
  - intros dep Hdep. destruct (Hall dep Hdep) as (a & Ha & Hsome).
    exists a. split; [done|]. destruct (decide (E = a)) as [->|Hne].
    + rewrite lookup_insert_eq. by eexists.
    + by rewrite lookup_insert_ne.
  - intros fuel visiting dep c c' Hstep.
    by destruct (resolve_dependency_spec _ _ _ _ _ (compute_with_spec fuel visiting) Hstep)
      as (_ & _ & ?).
Qed.

(** *** The helper of the test suite *)

Lemma compute_default_spec name cache cache' :
  compute_default registry algorithm name cache = inr cache' →
  default_entry registry cache' name
  ∧ ∀ k, default_entry registry cache k → default_entry registry cache' k.
Proof.
  unfold compute_default, compute.
  destruct (registry !! name) as [cls|] eqn:Hr; [|done].
  intros (_ & Hk & _ & _ & d & Hd)%compute_with_spec.
  assert (default_entry registry cache' name) as Hname by (by exists cls, d).
  split; [done|]. intros k (clsk & dk & Hrk & Hdk).
  destruct (decide (k = name)) as [->|Hne]; [done|].
  exists clsk, dk. auto.
Qed.

Lemma prepare_dependencies_spec deps cache cache' :
  foldl (λ (acc : analyzer_error + cache_t) dependency_name,
           match acc with
           | inl err => inl err
           | inr c =>
               let dependency_name :=
                 if has_bar dependency_name
                 then default dependency_name (head (split_bar dependency_name))
                 else dependency_name in
               compute_default registry algorithm dependency_name c
           end) (inr cache) deps = inr cache' →
  (∀ k, default_entry registry cache k → default_entry registry cache' k)
  ∧ ∀ dep, dep ∈ deps → default_entry registry cache' (computed_name dep).
Proof.
  revert cache. induction deps as [|dep deps IH]; intros cache.
  - intros [= <-]. split; [done|]. intros ? []%elem_of_nil.
  - cbn [foldl]. cbn zeta. fold (computed_name dep).
    destruct (compute_default registry algorithm (computed_name dep) cache)
      as [err|c] eqn:Hstep.
    { intros Hf. exfalso. revert Hf. clear.
      induction deps as [|d deps IH]; [done|]. cbn. apply IH. }
    intros (Hkeep & Hdeps)%IH. apply compute_default_spec in Hstep as [Hnew Hold].
    split; [auto|]. intros dep' [->|Hin]%elem_of_cons; auto.
Qed.

(** After [_prepare_sorting_analyzer] every dependency of the class is
    cached, by its name or by the first of its alternatives, with default
    parameters. *)
Lemma prepare_sorting_analyzer_dependencies random_spikes_params cls cache cache' :
  _prepare_sorting_analyzer registry algorithm random_spikes_params cls cache
  = inr cache' →
  ∀ dep, dep ∈ depend_on cls → default_entry registry cache' (computed_name dep).
Proof.
  unfold _prepare_sorting_analyzer.
  destruct (compute registry algorithm "random_spikes" _ cache) as [err|c0]; [done|].
  by intros [_ ?]%prepare_dependencies_spec.
Qed.

End ExtensionFacts.


(** ** Unit selection *)

Section SelectUnitsFacts.
Context {unit_id V params : Type} `{!EqDecision unit_id}.
Implicit Types (analyzer : SortingAnalyzer (unit_id:=unit_id) (V:=V) (params:=params))
  (ids : list unit_id).

Lemma index_of_lookup ids i u :
  NoDup ids → ids !! i = Some u → index_of u ids = Some i.
Proof.
  intros Hnd Hi. unfold index_of.
  destruct (list_find_elem_of (λ x, x = u) ids u) as [[j y] Hfind];
    [by eapply list_elem_of_lookup_2|done|].
  rewrite Hfind. cbn. f_equal.
  apply list_find_Some in Hfind as (Hj & -> & _).
  by eapply NoDup_lookup.
Qed.

Lemma index_of_is_Some ids u : u ∈ ids → is_Some (index_of u ids).
Proof.
  intros Hu. unfold index_of.
  destruct (list_find_elem_of (λ x, x = u) ids u Hu eq_refl) as [p ->]. by eexists.
Qed.

Lemma mapM_index_of_self ids :
  NoDup ids → mapM (λ u, index_of u ids) ids = Some (seq 0 (length ids)).
Proof.
  intros Hnd. apply mapM_Some, Forall2_same_length_lookup.
  split; [by rewrite length_seq|].
  intros i u j Hu [-> _]%lookup_seq. by apply index_of_lookup.
Qed.

Lemma omap_lookup_seq (pre values : list V) :
  omap (λ i, (pre ++ values) !! i) (seq (length pre) (length values)) = values.
Proof.
  revert pre. induction values as [|v values IH]; intros pre; [done|].
  cbn [length seq omap list_omap].
  rewrite lookup_app_r, Nat.sub_diag by lia. cbn. f_equal.
  specialize (IH (pre ++ [v])). rewrite length_app, Nat.add_1_r in IH.
  by rewrite <- app_assoc in IH.
Qed.

Lemma keep_by_mask_all (mask : list bool) (values : list V) :
  length mask = length values → Forall (λ b, b = true) mask →
  keep_by_mask mask values = values.
Proof.
  unfold keep_by_mask. revert mask.
  induction values as [|v values IH]; intros [|b mask] Hlen Hall; try done.
  apply Forall_cons in Hall as [-> Hall]. cbn [zip zip_with].
  rewrite filter_cons_True by done. cbn. f_equal. apply IH; [|done].
  cbn in Hlen. lia.
Qed.

Lemma new_unit_index_self analyzer sp :
  NoDup (unit_ids analyzer) → unit_index sp < length (unit_ids analyzer) →
  new_unit_index analyzer (unit_ids analyzer) sp = Some (unit_index sp).
Proof.
  intros Hnd Hlt. unfold new_unit_index.
  destruct (lookup_lt_is_Some_2 _ _ Hlt) as [u Hu]. rewrite Hu. cbn.
  by apply index_of_lookup.
Qed.

(** Selecting a list of units of the analyzer succeeds and the new
    analyzer has these units in the given order. *)
Lemma select_units_order analyzer unit_subset :
  unit_subset ⊆ unit_ids analyzer →
  ∃ sliced, select_units unit_subset analyzer = Some sliced
            ∧ unit_ids sliced = unit_subset.
Proof.
  intros Hsub. unfold select_units.
  destruct (mapM_is_Some_2 (λ u, index_of u (unit_ids analyzer)) unit_subset)
    as [positions ->]; [|by eexists].
  apply Forall_forall. intros u Hu. by apply index_of_is_Some, Hsub.
Qed.

Lemma renumber_spikes_self analyzer (sps : list Spike) :
  NoDup (unit_ids analyzer) →
  Forall (λ sp, unit_index sp < length (unit_ids analyzer)) sps →
  omap (λ sp, match new_unit_index analyzer (unit_ids analyzer) sp with
              | Some i => Some {| sample_index := sample_index sp;
                                  unit_index := i;
                                  segment_index := segment_index sp |}
              | None => None
              end) sps = sps.
Proof.
  intros Hnd. induction sps as [|sp sps IH]; intros Hsp; [done|].
  apply Forall_cons in Hsp as [Hlt Hsp]. cbn [omap list_omap].
  rewrite new_unit_index_self by done. rewrite IH by done. by destruct sp.
Qed.

Lemma project_field_self analyzer f :
  NoDup (unit_ids analyzer) →
  Forall (λ sp, unit_index sp < length (unit_ids analyzer)) (spikes analyzer) →
  field_wf analyzer f →
  project_field (seq 0 (length (unit_ids analyzer)))
    ((λ sp, bool_decide (is_Some (new_unit_index analyzer (unit_ids analyzer) sp)))
       <$> spikes analyzer) f = f.
Proof.
  intros Hnd Hsp Hf. destruct f as [values|values]; cbn in *; f_equal.
  - rewrite <- Hf. apply (omap_lookup_seq []).
  - apply keep_by_mask_all; [by rewrite length_fmap|].
    apply Forall_fmap, Forall_forall. intros sp Hin. cbn.
    apply bool_decide_eq_true_2. rewrite new_unit_index_self; [by eexists|done|].
    by eapply (proj1 (Forall_forall _ _) Hsp).
Qed.

(** Selecting all the units, in their order, gives back the analyzer. *)
Lemma select_units_all analyzer :
  analyzer_wf analyzer → select_units (unit_ids analyzer) analyzer = Some analyzer.
Proof.
  intros (Hnd & Hsp & Hext). unfold select_units.
  rewrite mapM_index_of_self by done. cbn zeta.
  rewrite renumber_spikes_self by done.
  assert (((λ r : ExtensionResult (params:=params) (data:=gmap string field),
              {| ext_params := ext_params r;
                 ext_data :=
                   project_field (seq 0 (length (unit_ids analyzer)))
                     ((λ sp, bool_decide
                               (is_Some (new_unit_index analyzer (unit_ids analyzer) sp)))
                        <$> spikes analyzer) <$> ext_data r |})
             <$> extensions analyzer) = extensions analyzer) as ->;
    [|by destruct analyzer].
  apply map_eq. intros name. rewrite lookup_fmap.
  destruct (extensions analyzer !! name) as [r|] eqn:Hr; [|done]. cbn. f_equal.
  assert (project_field (seq 0 (length (unit_ids analyzer)))
            ((λ sp, bool_decide
                      (is_Some (new_unit_index analyzer (unit_ids analyzer) sp)))
               <$> spikes analyzer) <$> ext_data r = ext_data r) as ->;
    [|by destruct r].
  apply map_eq. intros fname. rewrite lookup_fmap.
  destruct (ext_data r !! fname) as [f|] eqn:Hf; [|done]. cbn. f_equal.
  apply project_field_self; eauto.
Qed.

Lemma every_second_subseteq {A} (l : list A) : every_second l ⊆ l.
Proof.
  assert (∀ l : list A, every_second l ⊆ l ∧ ∀ x, every_second (x :: l) ⊆ x :: l)
    as Haux; [|apply Haux].
  clear l. induction l as [|y l [IH1 IH2]]; [done|]. split; [apply IH2|].
  intros x z. cbn. intros [->|Hz]%elem_of_cons; [by left|].
  right. right. by apply IH1.
Qed.

(** The assertion of [_check_one]: the analyzer selected on
    [unit_ids[::2]] has these unit ids. *)
Lemma check_one_assertion analyzer :
  ∃ sliced, select_units (every_second (unit_ids analyzer)) analyzer = Some sliced
            ∧ unit_ids sliced = every_second (unit_ids analyzer).
Proof. apply select_units_order, every_second_subseteq. Qed.

(** C8.  For a list of units of the analyzer, [select_units] answers a new
    analyzer whose unit ids are that list in the given order; applied to all
    the units it answers an analyzer equal to the original, unit ids, spike
    table and every cached array. *)
Theorem select_units_projection analyzer :
  analyzer_wf analyzer →
  (∀ unit_subset, unit_subset ⊆ unit_ids analyzer →
     ∃ sliced, select_units unit_subset analyzer = Some sliced
               ∧ unit_ids sliced = unit_subset)
  ∧ select_units (unit_ids analyzer) analyzer = Some analyzer.
Proof.
  intros Hwf. split; [intros S; apply select_units_order|by apply select_units_all].
Qed.

End SelectUnitsFacts.

(** ** The properties on concrete inputs *)

Section Instances.

(** The array the parent returns for [slice(None)] shares the memory of the
    buffer: an assignment made through it, as the stage would make without
    [copy()], shows in the next answer of the parent. *)
Example parent_answer_shares_buffer :
  ∃ v h1 h2,
    get_traces (NumpyRecordingSegment 0) 0 2 SliceAll ex_store = (inr v, h1)
    ∧ np_setitem_cols v 1 (Matrix 1 [[7]; [8]]%Z) h1 = (inr (), h2)
    ∧ pull_value (NumpyRecordingSegment 0) 0 2 SliceAll ex_store
      = inr (Matrix 3 [[1; 2; 3]; [4; 5; 6]]%Z)
    ∧ pull_value (NumpyRecordingSegment 0) 0 2 SliceAll h2
      = inr (Matrix 3 [[1; 7; 3]; [4; 8; 6]]%Z).
Proof. by eexists _, _, _. Qed.

(** C1.  The interpolation segment ignores [channel_indices]: asked for
    channel 0 of the first frame it answers all three channels, an array of
    shape (1, 3) where the contract gives (1, 1). *)
Theorem get_traces_ignores_channel_indices :
  ∃ y, pull_value ex_segment 0 1 (Indices [0%Z]) ex_store = inr y
       ∧ y = Matrix 3 [[1; 4; 3]]%Z
       ∧ shape y = (1, 3)
       ∧ shape y ≠ (Z.to_nat (1 - 0), length [0%Z]).
Proof. eexists. split_and!; [reflexivity..|]. by intros [=]. Qed.

Lemma get_traces_leaves_parent_untouched_witness :
  seg_valid ex_store ex_segment
  ∧ ∀ s e ci,
      pull_value (NumpyRecordingSegment 0) s e ci
        (get_traces ex_segment 0 2 SliceAll ex_store).2
      = pull_value (NumpyRecordingSegment 0) s e ci ex_store.
Proof.
  assert (seg_valid ex_store ex_segment) as Hvalid by (cbn; lia).
  split; [exact Hvalid|].
  refine (proj2 (proj2 (get_traces_leaves_parent_untouched
    (NumpyRecordingSegment 0) 1 2 0 2 SliceAll ex_store
    (get_traces ex_segment 0 2 SliceAll ex_store).1
    (get_traces ex_segment 0 2 SliceAll ex_store).2 Hvalid _))).
  reflexivity.
Defined.

Lemma get_traces_twice_same_array_witness :
  seg_valid ex_store ex_segment
  ∧ ∃ v2 h2 y,
      get_traces ex_segment 0 2 SliceAll
        (get_traces ex_segment 0 2 SliceAll ex_store).2 = (inr v2, h2)
      ∧ view_matrix (View 3 0 2) (get_traces ex_segment 0 2 SliceAll ex_store).2
        = (inr y, (get_traces ex_segment 0 2 SliceAll ex_store).2)
      ∧ view_matrix v2 h2 = (inr y, h2).
Proof.
  assert (seg_valid ex_store ex_segment) as Hvalid by (cbn; lia).
  split; [exact Hvalid|].
  refine (get_traces_twice_same_array ex_segment 0 2 SliceAll ex_store
    (View 3 0 2) (get_traces ex_segment 0 2 SliceAll ex_store).2 Hvalid _).
  reflexivity.
Defined.

Lemma get_traces_interpolates_bad_columns_witness :
  ∃ y product,
    view_matrix (View 3 0 2) (get_traces ex_segment 0 2 SliceAll ex_store).2
    = (inr y, (get_traces ex_segment 0 2 SliceAll ex_store).2)
    ∧ np_matmul (Matrix 3 [[1; 2; 3]; [4; 5; 6]]%Z) ex_weights = inr product
    ∧ shape y = shape (Matrix 3 [[1; 2; 3]; [4; 5; 6]]%Z)
    ∧ select_columns [1] (rows y) = rows product
    ∧ ∀ j, j ∉ [1] → column j (rows y) = column j [[1; 2; 3]; [4; 5; 6]]%Z.
Proof.
  refine (get_traces_interpolates_bad_columns (NumpyRecordingSegment 0) 1 2 0 2
    SliceAll ex_store (View 3 0 2) (get_traces ex_segment 0 2 SliceAll ex_store).2
    (Matrix 3 [[1; 2; 3]; [4; 5; 6]]%Z) true ex_weights true [1%Z] [1]
    _ _ _ _ _ _ _ _ _).
  - unfold heap_wf, ex_store, matrix_wf. repeat constructor.
  - cbn. lia.
  - reflexivity.
  - reflexivity.
  - reflexivity.
  - reflexivity.
  - apply NoDup_singleton.
  - reflexivity.
  - reflexivity.
Defined.

Lemma init_validation_aborts_witness :
  __init__ ex_kriging ex_recording (PyList [1%Z]) None 1%Z ex_store
  = (inl TypeError, ex_store)
  ∧ __init__ ex_kriging {| contact_vector := None; _recording_segments := [] |}
      (PyNdarray 1) None 1%Z ex_store
    = (inl ValueError, ex_store)
  ∧ __init__ ex_kriging
      {| contact_vector := Some {| si_units := "mm";
                                   contact_positions := contact_positions ex_probe |};
         _recording_segments := [NumpyRecordingSegment 0] |}
      (PyNdarray 1) None 1%Z ex_store
    = (inl NotImplementedError, ex_store).
Proof.
  split_and!.
  - apply (proj1 (init_validation_aborts ex_kriging ex_recording (PyList [1%Z])
                    None 1%Z ex_store)).
    reflexivity.
  - apply (proj1 (proj2 (init_validation_aborts ex_kriging
                    {| contact_vector := None; _recording_segments := [] |}
                    (PyNdarray 1) None 1%Z ex_store))); reflexivity.
  - apply (proj1 (proj2 (proj2 (init_validation_aborts ex_kriging _
                    (PyNdarray 1) None 1%Z ex_store)))
             {| si_units := "mm"; contact_positions := contact_positions ex_probe |});
      [reflexivity|reflexivity|]. by intros [=].
Defined.

Lemma init_default_sigma_is_mode_of_y_gaps_witness :
  __init__ ex_kriging ex_recording (PyNdarray 1) None 1%Z ex_store
  = (inr ex_stage, ex_store_locked)
  ∧ kw_sigma_um (_kwargs ex_stage) = Num 20%Z.
Proof.
  assert (__init__ ex_kriging ex_recording (PyNdarray 1) None 1%Z ex_store
          = (inr ex_stage, ex_store_locked)) as Hinit by reflexivity.
  split; [exact Hinit|].
  destruct (init_default_sigma_is_mode_of_y_gaps ex_kriging ex_recording
              (PyNdarray 1) 1%Z ex_store ex_stage ex_store_locked ex_probe
              eq_refl Hinit) as (y & Hy & _ & Hpitch).
  apply (Hpitch 20%Z 2). injection Hy as <-. reflexivity.
Defined.

Lemma init_locks_bad_channel_indexes_witness :
  __init__ ex_kriging ex_recording (PyNdarray 1) (Some (Num 20%Z)) 1%Z ex_store
  = (inr ex_stage, ex_store_locked)
  ∧ ∃ b a,
      PyNdarray 1 = PyNdarray b
      ∧ ex_store !! b = Some a
      ∧ ex_store_locked !! b = Some (Ndarray false (data a))
      ∧ bad_channel_indexes ex_stage = b
      ∧ Forall (λ seg, ∃ parent weights,
                  seg = InterpolateBadChannelsSegment parent b weights)
          (recording_segments ex_stage)
      ∧ (∀ i x, ∃ err, np_setitem_int b i x ex_store_locked = (inl err, ex_store_locked))
      ∧ (∀ v idx val, base v = b →
           ∃ err, np_setitem_cols v idx val ex_store_locked = (inl err, ex_store_locked))
      ∧ ∀ ops, run_operations ops ex_store_locked !! b = Some (Ndarray false (data a)).
Proof.
  assert (__init__ ex_kriging ex_recording (PyNdarray 1) (Some (Num 20%Z)) 1%Z ex_store
          = (inr ex_stage, ex_store_locked)) as Hinit by reflexivity.
  split; [exact Hinit|].
  exact (init_locks_bad_channel_indexes ex_kriging ex_recording (PyNdarray 1)
           (Some (Num 20%Z)) 1%Z ex_store ex_stage ex_store_locked Hinit).
Defined.

Lemma kriging_weights_sum_to_one_witness :
  (0 < 20)%R ∧ (0 < 13 / 10)%R
  ∧ (∃ g, g < length ex_positions ∧ g ∉ [1])
  ∧ shape (get_kriging_bad_channel_weights ex_positions [1] 20%R (13 / 10)%R) = (3, 1)
  ∧ Rsum ((λ g, entry (get_kriging_bad_channel_weights ex_positions [1] 20%R (13 / 10)%R) g 0)
            <$> good_channels 3 [1]) = 1%R.
Proof.
  assert (0 < 20)%R as Hsigma by lra.
  assert (0 < 13 / 10)%R as Hp by lra.
  assert (∃ g, g < length ex_positions ∧ g ∉ [1]) as Hgood.
  { exists 0. split; [cbn; lia|]. apply not_elem_of_cons. split; [lia|apply not_elem_of_nil]. }
  split_and!; [exact Hsigma|exact Hp|exact Hgood|..];
    destruct (kriging_weights_sum_to_one ex_positions [1] 20%R (13 / 10)%R
                Hsigma Hp Hgood) as (Hshape & _ & Hcols & _).
  - exact Hshape.
  - exact (proj1 (Hcols 0 1 eq_refl)).
Defined.

Lemma compute_caches_dependencies_witness :
  compute ex_registry ex_algorithm "amplitude_scalings" 7 ∅ = inr ex_cache
  ∧ default_entry ex_registry ex_cache "waveforms"
  ∧ ex_cache !! "waveforms" = Some {| ext_params := 1; ext_data := 1 |}.
Proof.
  assert (compute ex_registry ex_algorithm "amplitude_scalings" 7 ∅ = inr ex_cache)
    as Hrun by reflexivity.
  split; [exact Hrun|]. split; [|reflexivity].
  refine (proj1 (compute_caches_dependencies ex_registry ex_algorithm
    "amplitude_scalings" 7 ∅ ex_cache ex_amplitude_scalings _ Hrun) "waveforms" _ _ _).
  - reflexivity.
  - cbn. apply elem_of_cons. right. apply elem_of_cons. by left.
  - reflexivity.
  - reflexivity.
Defined.

Lemma ex_analyzer_wf : analyzer_wf ex_analyzer.
Proof.
  split_and!.
  - cbn. repeat (apply NoDup_cons; split; [rewrite ?elem_of_cons, elem_of_nil; lia|]).
    apply NoDup_nil_2.
  - cbn. repeat constructor.
  - intros name r fname f Hr Hf. cbn in Hr.
    apply lookup_singleton_Some in Hr as [_ <-]. cbn in Hf.
    apply lookup_insert_Some in Hf as [[_ <-]|[_ Hf]]; [done|].
    by apply lookup_singleton_Some in Hf as [_ <-].
Defined.

Lemma select_units_projection_witness :
  analyzer_wf ex_analyzer
  ∧ (∃ sliced, select_units [30; 10] ex_analyzer = Some sliced
               ∧ unit_ids sliced = [30; 10])
  ∧ select_units [10; 20; 30] ex_analyzer = Some ex_analyzer.
Proof.
  split; [exact ex_analyzer_wf|].
  destruct (select_units_projection ex_analyzer ex_analyzer_wf) as [Horder Hall].
  split; [|exact Hall]. apply Horder.
  intros u. cbn. rewrite !elem_of_cons, !elem_of_nil. tauto.
Defined.

End Instances.


(** * Further properties *)

(** ** Pulls through the interpolation segment *)

Section PullFurther.
Context {T : Type} `{!Scalar T}.
Implicit Types (h : heap T) (x y : matrix (T:=T)).

Lemma np_setitem_cols_store v idx val h res h' :
  np_setitem_cols v idx val h = (res, h') →
  h' = h ∨ ∃ c, h' = <[base v := c]> h.
Proof.
  unfold np_setitem_cols, mbind, M_bind, load, lift, store, raise.
  destruct (h !! base v) as [a|]; [|intros [= _ <-]; by left].
  destruct (data a) as [m|]; [|intros [= _ <-]; by left].
  destruct (writeable a); [|intros [= _ <-]; by left].
  destruct (h !! idx); [|intros [= _ <-]; by left].
  destruct (assign_columns _ _ _); intros [= _ <-]; [by left|right; by eexists].
Qed.

(** X1.  The array an interpolation segment returns is a whole new writeable
    array, no view of an array that existed before the call: an assignment
    made through it changes the answer of no chain of the store the pull
    started from. *)
Theorem get_traces_answer_is_private parent bad weights s e ci h v h' :
  get_traces (InterpolateBadChannelsSegment parent bad weights) s e ci h = (inr v, h') →
  length h ≤ base v
  ∧ (∃ y, h' !! base v = Some (Ndarray true (Float2D y)) ∧ lo v = 0 ∧ hi v = nrows y)
  ∧ ∀ idx val res h'' seg' s' e' ci',
      np_setitem_cols v idx val h' = (res, h'') →
      seg_valid h seg' →
      pull_value seg' s' e' ci' h'' = pull_value seg' s' e' ci' h.
Proof.
  rewrite get_traces_interpolate_unfold.
  destruct (get_traces parent s e SliceAll h) as [[err|vp] h1] eqn:Hp; [done|].
  apply get_traces_appends in Hp as [new1 ->].
  destruct (view_matrix vp _).1 as [err|x]; [done|]. cbn zeta.
  destruct (interpolated _ _ _ _) as [err|y] eqn:Hy; [done|].
  intros [= <- <-]. apply interpolated_shape in Hy as [_ Hr]. cbn [base lo hi].
  split_and!.
  - rewrite length_app. lia.
  - exists y. by rewrite lookup_snoc.
  - intros idx val res h'' seg' s' e' ci' Hset Hvalid.
    apply np_setitem_cols_store in Hset as [->|[c ->]]; cbn [base].
    + rewrite <- app_assoc. by apply pull_value_app.
    + rewrite insert_snoc, <- app_assoc. by apply pull_value_app.
Qed.




Lemma interpolated_lookup h x bad weights wflag wm bflag items :
  h !! weights = Some (Ndarray wflag (Float2D wm)) →
  h !! bad = Some (Ndarray bflag (Int1D items)) →
  interpolated h x bad weights =
  match np_matmul x wm with
  | inl err => inl err
  | inr product => assign_columns x (Int1D items) product
  end.
Proof. intros Hw Hb. unfold interpolated. by rewrite Hw, Hb. Qed.


Lemma zip_with_assign_row_nil (vals rs : list (list T)) :
  length vals = length rs → zip_with (assign_row []) vals rs = rs.
Proof.
  revert vals. induction rs as [|r rs IH]; intros [|q vals] Hlen; try done.
  cbn. f_equal. apply IH. cbn in Hlen. lia.
Qed.

(** X3.  With no bad channel, an empty index array and weights of shape
    (C, 0), the pull answers a copy of the traces of its parent. *)
Theorem get_traces_without_bad_channels
    parent bad weights s e ci h x wflag wm bflag :
  seg_valid h parent →
  h !! weights = Some (Ndarray wflag (Float2D wm)) →
  h !! bad = Some (Ndarray bflag (Int1D [])) →
  pull_value parent s e SliceAll h = inr x →
  ncols x = nrows wm → ncols wm = 0 →
  pull_value (InterpolateBadChannelsSegment parent bad weights) s e ci h = inr x.
Proof.
  intros Hp Hw Hb Hx Heq Hk.
  rewrite pull_value_interpolate, Hx by (by eapply lookup_lt_Some).
  rewrite (interpolated_lookup _ _ _ _ _ _ _ _ Hw Hb).
  unfold np_matmul. rewrite bool_decide_eq_true_2 by done.
  unfold assign_columns.
  change (norm_indices (ncols x) []) with (inr [] : exn + list nat).
  unfold broadcast_matrix, broadcast_to. cbn [ncols rows length].
  rewrite bool_decide_eq_true_2 by (by left).
  rewrite bool_decide_eq_true_2 by (unfold nrows; by rewrite length_fmap).
  rewrite bool_decide_eq_true_2 by done. rewrite list_fmap_id.
  rewrite zip_with_assign_row_nil by (by rewrite length_fmap).
  by rewrite matrix_eta.
Qed.


Lemma assign_row_lookup_last js vs (r : list T) k j v :
  js !! k = Some j → vs !! k = Some v → j < length r →
  (∀ k', k < k' → js !! k' ≠ Some j) →
  assign_row js vs r !! j = Some v.
Proof.
  unfold assign_row. revert vs r k.
  induction js as [|j0 js IH]; intros [|v0 vs] r k Hj Hv Hlt Hlast; try done.
  cbn [zip zip_with foldl fst snd]. destruct k as [|k]; cbn in Hj, Hv.
  - injection Hj as ->. injection Hv as ->.
    fold (assign_row js vs (<[j:=v]> r)).
    rewrite assign_row_lookup_other; [by apply list_lookup_insert_eq|].
    intros [k' Hk']%list_elem_of_lookup. apply (Hlast (S k')); [lia|done].
  - apply (IH vs _ k); [done..|by rewrite length_insert|].
    intros k' Hk'. apply (Hlast (S k')). lia.
Qed.

Lemma assign_columns_last x items product js y :
  matrix_wf x → matrix_wf product →
  nrows product = nrows x → ncols product = length js →
  norm_indices (ncols x) items = inr js →
  assign_columns x (Int1D items) product = inr y →
  ∀ k j, js !! k = Some j → (∀ k', k < k' → js !! k' ≠ Some j) →
         column j (rows y) = column k (rows product).
Proof.
  intros Hx Hp Hn Hk Hjs. unfold assign_columns. rewrite Hjs.
  unfold broadcast_matrix, broadcast_to.
  rewrite !bool_decide_eq_true_2 by (unfold nrows in *; auto).
  intros [= <-] k j Hj Hlast. unfold column. cbn [rows]. rewrite list_fmap_id.
  destruct (norm_indices_lt _ _ _ Hjs) as [Hlt _].
  pose proof (proj1 (Forall_lookup _ _) Hlt k j Hj) as Hjc.
  unfold matrix_wf, nrows in *. destruct x as [c xs], product as [w ps]. cbn in *.
  subst w. clear Hjs.
  revert xs Hx Hn. induction ps as [|q ps IH]; intros [|r xs] Hx Hn; cbn in *; try done.
  apply Forall_cons in Hx as [Hr Hx]. apply Forall_cons in Hp as [Hq Hp].
  f_equal; [|apply IH; [done..|lia]].
  destruct (lookup_lt_is_Some_2 q k) as [v Hv];
    [rewrite Hq; by eapply lookup_lt_Some|].
  rewrite Hv. by rewrite (assign_row_lookup_last js q r k j v) by (done || lia).
Qed.

(** X4.  When a bad-channel index is repeated, the column it names holds the
    product column of its last occurrence: for every position [k] of the index
    array whose index does not occur again later, the column of that index in
    the answer is column [k] of the product of the parent's traces with the
    weights. *)
Theorem get_traces_repeated_index_keeps_last
    parent bad weights s e ci h v h' x wflag wm bflag items js :
  heap_wf h → seg_valid h parent →
  h !! weights = Some (Ndarray wflag (Float2D wm)) →
  h !! bad = Some (Ndarray bflag (Int1D items)) →
  pull_value parent s e SliceAll h = inr x →
  norm_indices (ncols x) items = inr js →
  ncols wm = length js →
  get_traces (InterpolateBadChannelsSegment parent bad weights) s e ci h = (inr v, h') →
  ∃ y product,
    view_matrix v h' = (inr y, h')
    ∧ np_matmul x wm = inr product
    ∧ ∀ k j, js !! k = Some j → (∀ k', k < k' → js !! k' ≠ Some j) →
             column j (rows y) = column k (rows product).
Proof.
  intros Hh Hp Hw Hb Hx Hjs Hk Hg.
  destruct (get_traces_readable _ _ _ _ _ _ _ Hg) as [y Hy].
  pose proof (pull_value_interpolate parent bad weights s e ci h
                (lookup_lt_Some _ _ _ Hb) (lookup_lt_Some _ _ _ Hw)) as Hpull.
  unfold pull_value at 1 in Hpull. rewrite Hg, Hy, Hx in Hpull. cbn [fst] in Hpull.
  symmetry in Hpull. rewrite (interpolated_lookup _ _ _ _ _ _ _ _ Hw Hb) in Hpull.
  destruct (np_matmul x wm) as [err|product] eqn:Hprod; [done|].
  apply np_matmul_shape in Hprod as (Hc & Hr & Hwf).
  exists y, product. split_and!; [done..|].
  apply (assign_columns_last x items product js y);
    [by eapply pull_value_wf|done|done|congruence|done|done].
Qed.

(** X5.  Stages stack: the answer of an interpolation segment whose parent
    is an interpolation segment is the outer transform of the inner transform
    of the traces at the head, whatever the inner pull allocated. *)
Theorem stacked_segments_compose parent bad1 weights1 bad2 weights2 s e ci h :
  seg_valid h
    (InterpolateBadChannelsSegment
       (InterpolateBadChannelsSegment parent bad1 weights1) bad2 weights2) →
  pull_value
    (InterpolateBadChannelsSegment
       (InterpolateBadChannelsSegment parent bad1 weights1) bad2 weights2) s e ci h
  = match pull_value parent s e SliceAll h with
    | inl err => inl err
    | inr x =>
        match interpolated h x bad1 weights1 with
        | inl err => inl err
        | inr y => interpolated h y bad2 weights2
        end
    end.
Proof.
  intros ((Hp & Hb1 & Hw1) & Hb2 & Hw2).
  rewrite !pull_value_interpolate by done.
  by destruct (pull_value parent s e SliceAll h).
Qed.

End PullFurther.


(** ** Construction of the stage, further *)

Section StageFurther.
Context {T : Type} `{!Scalar T}.
Variable get_kriging_bad_channel_weights :
  matrix (T:=T) → array_data (T:=T) → np_scalar T → T → exn + matrix (T:=T).
Implicit Types (h : heap T).

Local Abbreviation init := (__init__ get_kriging_bad_channel_weights).

(** The constructor, step by step. *)
Lemma init_unfold recording bad sigma_um p h :
  init recording bad sigma_um p h =
  match bad, contact_vector recording with
  | PyNdarray b, Some probe =>
      if String.eqb (si_units probe) "um" then
        match resolved_sigma_um sigma_um (contact_positions probe) with
        | inl err => (inl err, h)
        | inr sigma =>
            match h !! b with
            | None => (inl DanglingReference, h)
            | Some a =>
                match get_kriging_bad_channel_weights
                        (contact_positions probe) (data a) sigma p with
                | inl err => (inl err, h)
                | inr w => (inr (constructed_stage recording b sigma p (length h)),
                            constructed_store h b a w)
                end
            end
        end
      else (inl NotImplementedError, h)
  | PyNdarray b, None => (inl ValueError, h)
  | _, _ => (inl TypeError, h)
  end.
Proof.
  unfold __init__. unfold mbind at 1, M_bind at 1. rewrite check_inputs_run.
  destruct bad as [| | |b]; try done. cbn [is_ndarray negb].
  destruct (contact_vector recording) as [probe|] eqn:Hc; [|done].
  destruct (String.eqb (si_units probe) "um"); [|done]. cbn [negb].
  unfold ndarray_of, get_probe. rewrite Hc.
  unfold mbind at 1 2, M_bind at 1 2, mret at 1 2, M_ret at 1 2.
  unfold mbind at 1, M_bind at 1.
  assert (match sigma_um with
          | Some s => mret s
          | None => get_recommended_sigma_um recording (contact_positions probe)
          end h = (resolved_sigma_um sigma_um (contact_positions probe), h)) as ->.
  { destruct sigma_um as [s|]; [done|]. cbn.
    unfold get_recommended_sigma_um, mbind, M_bind, lift.
    by destruct (y_coordinates _). }
  destruct (resolved_sigma_um _ _) as [err|sigma]; [done|].
  unfold calculate_weights_and_lock_channel_idxs.
  unfold mbind, M_bind, load, lift, alloc, np_setflags_readonly, store, mret, M_ret.
  destruct (h !! b) as [a|] eqn:Ha; [|done].
  destruct (get_kriging_bad_channel_weights _ _ _ _) as [err|w]; [done|].
  unfold mbind, M_bind, load. by rewrite (lookup_app_l_Some _ _ _ _ Ha).
Qed.

Lemma init_inversion recording bad sigma_um p h stage h' :
  init recording bad sigma_um p h = (inr stage, h') →
  ∃ b probe a sigma w,
    bad = PyNdarray b
    ∧ contact_vector recording = Some probe
    ∧ si_units probe = "um"
    ∧ resolved_sigma_um sigma_um (contact_positions probe) = inr sigma
    ∧ h !! b = Some a
    ∧ get_kriging_bad_channel_weights (contact_positions probe) (data a) sigma p = inr w
    ∧ stage = constructed_stage recording b sigma p (length h)
    ∧ h' = constructed_store h b a w.
Proof.
  rewrite init_unfold.
  destruct bad as [| | |b]; try (by repeat case_match).
  destruct (contact_vector recording) as [probe|]; [|done].
  destruct (String.eqb (si_units probe) "um") eqn:Hu; [|done].
  apply String.eqb_eq in Hu.
  destruct (resolved_sigma_um _ _) as [err|sigma] eqn:Hs; [done|].
  destruct (h !! b) as [a|] eqn:Ha; [|done].
  destruct (get_kriging_bad_channel_weights _ _ _ _) as [err|w] eqn:Hw; [done|].
  intros [= <- <-]. by exists b, probe, a, sigma, w.
Qed.

Lemma init_sufficient recording b probe a sigma_um sigma w p h :
  contact_vector recording = Some probe →
  si_units probe = "um" →
  resolved_sigma_um sigma_um (contact_positions probe) = inr sigma →
  h !! b = Some a →
  get_kriging_bad_channel_weights (contact_positions probe) (data a) sigma p = inr w →
  init recording (PyNdarray b) sigma_um p h
  = (inr (constructed_stage recording b sigma p (length h)), constructed_store h b a w).
Proof.
  intros Hc Hu Hs Ha Hw. rewrite init_unfold, Hc.
  apply String.eqb_eq in Hu. by rewrite Hu, Hs, Ha, Hw.
Qed.

(** X6.  Construction is all or nothing: whenever the constructor raises,
    whatever the exception (a failed validation, no y column, a failing
    weight computation), the store is the one it was called in: nothing was
    allocated and the caller's index array keeps its writeable flag. *)
Theorem init_failure_leaves_store recording bad sigma_um p h err h' :
  __init__ get_kriging_bad_channel_weights recording bad sigma_um p h = (inl err, h') →
  h' = h.
Proof.
  rewrite init_unfold. repeat case_match; congruence.
Qed.

(** X7.  When construction succeeds: exactly when the index value is an
    ndarray of the store, a probe with unit "um" is attached, [sigma_um] is
    given or the contact positions have a y column, and the weight
    computation succeeds.  The stage then wraps every parent segment with the
    same index array and the same new weights array, and the store has the
    weights appended and the index array read-only. *)
Theorem init_succeeds_iff recording bad sigma_um p h stage h' :
  init recording bad sigma_um p h = (inr stage, h')
  ↔ ∃ b probe a sigma w,
      bad = PyNdarray b
      ∧ contact_vector recording = Some probe
      ∧ si_units probe = "um"
      ∧ resolved_sigma_um sigma_um (contact_positions probe) = inr sigma
      ∧ h !! b = Some a
      ∧ get_kriging_bad_channel_weights (contact_positions probe) (data a) sigma p = inr w
      ∧ stage = constructed_stage recording b sigma p (length h)
      ∧ h' = constructed_store h b a w.
Proof.
  split; [apply init_inversion|].
  intros (b & probe & a & sigma & w & -> & Hc & Hu & Hs & Ha & Hw & -> & ->).
  by eapply init_sufficient.
Qed.

(** X8.  With [sigma_um=None] and contact positions of fewer than two
    columns the constructor raises IndexError, reading the y column; the
    store is unchanged.  (With a [sigma_um] given the y column is not read.) *)
Theorem init_without_y_column recording b p h probe :
  contact_vector recording = Some probe →
  si_units probe = "um" →
  ncols (contact_positions probe) < 2 →
  __init__ get_kriging_bad_channel_weights recording (PyNdarray b) None p h
  = (inl IndexError, h).
Proof.
  intros Hc Hu Hcols. rewrite init_unfold, Hc.
  apply String.eqb_eq in Hu. rewrite Hu. cbn [resolved_sigma_um].
  unfold y_coordinates. rewrite bool_decide_eq_false_2 by lia. done.
Qed.

Lemma all_equal_replicate (y : list T) :
  (∀ v1 v2, v1 ∈ y → v2 ∈ y → v1 = v2) →
  y = [] ∨ ∃ c n, y = replicate (S n) c.
Proof.
  destruct y as [|c y]; [by left|]. intros Heq. right. exists c, (length y).
  cbn. f_equal. symmetry. apply replicate_as_Forall. split; [done|].
  apply Forall_forall. intros v Hv. apply Heq; [by left|by right].
Qed.

(** X9.  On a probe whose contacts all have the same y-coordinate (a single
    row, or no contact at all) the recommended [sigma_um] is not-a-number, and
    a construction with [sigma_um=None] that succeeds records not-a-number:
    no exception is raised for it. *)
Theorem init_single_row_sigma_is_nan recording bad p h stage h' probe y :
  contact_vector recording = Some probe →
  y_coordinates (contact_positions probe) = inr y →
  (∀ v1 v2, v1 ∈ y → v2 ∈ y → v1 = v2) →
  init recording bad None p h = (inr stage, h') →
  kw_sigma_um (_kwargs stage) = NaN.
Proof.
  intros Hc Hy Heq (b & probe' & a & sigma & w & _ & Hc' & _ & Hs & _ & _ & -> & _)%init_inversion.
  assert (probe' = probe) as -> by congruence. cbn.
  cbn in Hs. rewrite Hy in Hs. injection Hs as <-.
  destruct (all_equal_replicate y Heq) as [->|(c & n & ->)]; [done|].
  by rewrite np_unique_replicate.
Qed.


(** A pull reads the contents of arrays, never their flags. *)
Lemma interpolated_data h1 h2 (x : matrix (T:=T)) bad weights :
  data <$> h1 = data <$> h2 →
  interpolated h1 x bad weights = interpolated h2 x bad weights.
Proof.
  intros Hd. unfold interpolated.
  pose proof (f_equal (λ l, l !! weights) Hd) as Hw.
  pose proof (f_equal (λ l, l !! bad) Hd) as Hb.
  cbn in Hw, Hb. rewrite !list_lookup_fmap in Hw, Hb.
  destruct (h1 !! weights) as [w1|], (h2 !! weights) as [w2|]; try done.
  cbn in Hw. injection Hw as ->. destruct (data w2); [|done].
  destruct (np_matmul x m); [done|].
  destruct (h1 !! bad) as [b1|], (h2 !! bad) as [b2|]; try done.
  cbn in Hb. by injection Hb as ->.
Qed.

Lemma pull_value_data seg s e ci h1 h2 :
  data <$> h1 = data <$> h2 → seg_valid h1 seg →
  pull_value seg s e ci h1 = pull_value seg s e ci h2.
Proof.
  intros Hd. assert (length h1 = length h2) as Hlen.
  { by rewrite <- (length_fmap data h1), Hd, length_fmap. }
  revert s e ci. induction seg as [buf|parent IH bad weights]; intros s e ci Hv.
  - rewrite !pull_value_numpy.
    pose proof (f_equal (λ l, l !! buf) Hd) as Hb. cbn in Hb.
    rewrite !list_lookup_fmap in Hb. unfold numpy_pull.
    destruct (h1 !! buf) as [a1|], (h2 !! buf) as [a2|]; try done.
    cbn in Hb. by injection Hb as ->.
  - destruct Hv as (Hp & Hb & Hw).
    rewrite !pull_value_interpolate by lia. rewrite IH by done.
    destruct (pull_value parent s e SliceAll h2); [done|].
    by apply interpolated_data.
Qed.

Lemma constructed_store_data h b a w :
  h !! b = Some a →
  data <$> constructed_store h b a w = data <$> (h ++ [Ndarray true (Float2D w)]).
Proof.
  intros Ha. unfold constructed_store. rewrite list_fmap_insert. cbn [data].
  apply list_insert_id. rewrite list_lookup_fmap.
  by rewrite (lookup_app_l_Some _ _ _ _ Ha).
Qed.

Lemma constructed_store_lookup h b a w :
  h !! b = Some a →
  constructed_store h b a w !! b = Some (Ndarray false (data a))
  ∧ constructed_store h b a w !! length h = Some (Ndarray true (Float2D w))
  ∧ length (constructed_store h b a w) = S (length h).
Proof.
  intros Ha. pose proof (lookup_lt_Some _ _ _ Ha) as Hlt.
  unfold constructed_store. split_and!.
  - apply list_lookup_insert_eq. rewrite length_app. lia.
  - rewrite list_lookup_insert_ne by lia. apply lookup_snoc.
  - rewrite length_insert, length_app. cbn. lia.
Qed.

Lemma seg_valid_le h1 h2 seg :
  length h1 ≤ length h2 → seg_valid h1 seg → seg_valid h2 seg.
Proof.
  intros Hle. induction seg as [buf|parent IH bad weights]; cbn; [lia|].
  intros (?&?&?). split_and!; [auto|lia..].
Qed.

(** X10.  After a successful construction every segment of the stage wraps
    the parent segment at the same position, and a pull through it, on the
    store the constructor left, is the transform of the parent's traces by
    the weights computed once at construction and the contents of the
    caller's index array; the index array being read-only does not hinder the
    pull. *)
Theorem init_then_get_traces recording bad sigma_um p h stage h' :
  init recording bad sigma_um p h = (inr stage, h') →
  Forall (seg_valid h) (_recording_segments recording) →
  ∃ b a probe sigma w,
    bad = PyNdarray b ∧ h !! b = Some a
    ∧ get_kriging_bad_channel_weights (contact_positions probe) (data a) sigma p = inr w
    ∧ Forall (seg_valid h') (recording_segments stage)
    ∧ ∀ i parent, _recording_segments recording !! i = Some parent →
        recording_segments stage !! i
        = Some (InterpolateBadChannelsSegment parent b (length h))
        ∧ ∀ s e ci,
            pull_value (InterpolateBadChannelsSegment parent b (length h)) s e ci h'
            = match pull_value parent s e SliceAll h with
              | inl err => inl err
              | inr x =>
                  match np_matmul x w with
                  | inl err => inl err
                  | inr product => assign_columns x (data a) product
                  end
              end.
Proof.
  intros (b & probe & a & sigma & w & -> & _ & _ & _ & Ha & Hw & -> & ->)%init_inversion
    Hvalid.
  destruct (constructed_store_lookup h b a w Ha) as (Hb' & Hw' & Hlen).
  pose proof (lookup_lt_Some _ _ _ Ha) as Hlt.
  exists b, a, probe, sigma, w. split_and!; [done..| |].
  - cbn. apply Forall_fmap. eapply Forall_impl; [done|]. intros parent Hp. cbn.
    split_and!; [|lia..]. eapply seg_valid_le; [|done]. lia.
  - intros i parent Hi. split; [cbn; by rewrite list_lookup_fmap, Hi|].
    intros s e ci.
    assert (seg_valid h parent) as Hp.
    { by eapply (proj1 (Forall_lookup _ _) Hvalid). }
    rewrite pull_value_interpolate by lia.
    rewrite <- (pull_value_data parent s e SliceAll
                  (h ++ [Ndarray true (Float2D w)]) (constructed_store h b a w))
      by (by rewrite ?constructed_store_data; try apply seg_valid_app).
    rewrite pull_value_app by done.
    destruct (pull_value parent s e SliceAll h) as [err|x]; [done|].
    unfold interpolated. by rewrite Hw', Hb'.
Qed.


End StageFurther.


(** ** The recommended sigma on integer coordinates *)

Section SigmaFurther.
Implicit Types (l cs : list Z) (h : heap Z).

Lemma get_recommended_sigma_um_run (recording : Recording (T:=Z)) positions h :
  get_recommended_sigma_um recording positions h =
  (match y_coordinates positions with
   | inl err => inl err
   | inr y => inr (scipy_stats_mode (np_diff (np_unique y)))
   end, h).
Proof.
  unfold get_recommended_sigma_um, mbind, M_bind, lift.
  by destruct (y_coordinates positions).
Qed.

(** The gaps of a strictly increasing list are positive differences of two
    of its values. *)
Lemma np_diff_sorted l g :
  StronglySorted Z.lt l → g ∈ np_diff l →
  (0 < g)%Z ∧ ∃ a b, a ∈ l ∧ b ∈ l ∧ g = (b - a)%Z.
Proof.
  unfold np_diff. induction 1 as [|a l Hl IH Ha]; [by intros ?%elem_of_nil|].
  destruct l as [|b l]; [by intros ?%elem_of_nil|]. cbn.
  intros [->|Hg]%elem_of_cons.
  - apply Forall_cons in Ha as [Hab _]. split; [lia|].
    exists a, b. split_and!; [by left|right; by left|done].
  - destruct (IH Hg) as (Hpos & a' & b' & Ha' & Hb' & ->). split; [done|].
    exists a', b'. split_and!; [by right|by right|done].
Qed.

(** The scan of [scipy_stats_mode] over the sorted distinct values. *)
Lemma mode_scan l cs best (seen : list Z) :
  best ∈ seen →
  (∀ g, g ∈ seen → occurrences g l ≤ occurrences best l
                   ∧ (occurrences g l = occurrences best l → (best ≤ g)%Z)) →
  (∀ g x, g ∈ seen → x ∈ cs → (g < x)%Z) →
  StronglySorted Z.lt cs →
  let m := foldl (λ best x, if (occurrences best l <? occurrences x l)%nat
                            then x else best) best cs in
  m ∈ seen ++ cs
  ∧ ∀ g, g ∈ seen ++ cs → occurrences g l ≤ occurrences m l
                         ∧ (occurrences g l = occurrences m l → (m ≤ g)%Z).
Proof.
  revert best seen. induction cs as [|x cs IH]; intros best seen Hbest Hmax Hlt Hs.
  - cbn. rewrite app_nil_r. auto.
  - apply StronglySorted_inv in Hs as [Hs Hx]. cbn [foldl].
    replace (seen ++ x :: cs) with ((seen ++ [x]) ++ cs) by (by rewrite <- app_assoc).
    apply IH; [| | |done].
    + destruct (_ <? _)%nat; rewrite elem_of_app, list_elem_of_singleton; auto.
    + intros g [Hg| ->%list_elem_of_singleton]%elem_of_app.
      * destruct (Hmax g Hg) as [Hle Htie].
        destruct (Nat.ltb_spec (occurrences best l) (occurrences x l)); [lia|auto].
      * destruct (Nat.ltb_spec (occurrences best l) (occurrences x l)); [lia|].
        split; [lia|]. intros _. apply Z.lt_le_incl, Hlt; [done|by left].
    + intros g y [Hg| ->%list_elem_of_singleton]%elem_of_app Hy.
      * apply Hlt; [done|by right].
      * by apply (proj1 (Forall_forall _ _) Hx).
Qed.

Lemma scipy_stats_mode_spec l m :
  scipy_stats_mode l = Num m →
  m ∈ l
  ∧ ∀ g, g ∈ l → occurrences g l ≤ occurrences m l
                 ∧ (occurrences g l = occurrences m l → (m ≤ g)%Z).
Proof.
  unfold scipy_stats_mode. pose proof (np_unique_sorted l) as Hs.
  pose proof (λ y, np_unique_elem y l) as Helem.
  destruct (np_unique l) as [|c cs]; [done|]. intros [= <-].
  apply StronglySorted_inv in Hs as [Hs Hc].
  destruct (mode_scan l cs c [c]) as [Hin Hmax]; [by left| | |done|].
  - intros g ->%list_elem_of_singleton. split; [done|lia].
  - intros g x ->%list_elem_of_singleton Hx. by apply (proj1 (Forall_forall _ _) Hc).
  - cbn in Hin, Hmax. split; [by apply Helem|].
    intros g Hg. by apply Hmax, Helem.
Qed.

(** X12.  On integer coordinates, a recommended [sigma_um] that is a number
    is positive, and it is the difference of the y-coordinates of two
    contacts. *)
Theorem recommended_sigma_um_positive (recording : Recording (T:=Z)) positions h s h' :
  get_recommended_sigma_um recording positions h = (inr (Num s), h') →
  (0 < s)%Z
  ∧ ∃ y1 y2, y1 ∈ column 1 (rows positions) ∧ y2 ∈ column 1 (rows positions)
             ∧ s = (y2 - y1)%Z.
Proof.
  rewrite get_recommended_sigma_um_run. unfold y_coordinates.
  case_bool_decide; [|done]. intros [= Hm _].
  apply scipy_stats_mode_spec in Hm as [Hin _].
  apply np_diff_sorted in Hin as (Hpos & a & b & Ha & Hb & ->);
    [|apply np_unique_sorted].
  apply (proj1 (np_unique_elem _ _)) in Ha, Hb. split; [done|]. by exists a, b.
Qed.

(** X13.  The recommended [sigma_um] is the most common gap between
    consecutive distinct y-coordinates, and the smallest of the most common
    ones when several gaps are as common. *)
Theorem recommended_sigma_um_most_common
    (recording : Recording (T:=Z)) positions h s h' y :
  y_coordinates positions = inr y →
  get_recommended_sigma_um recording positions h = (inr (Num s), h') →
  let gaps := np_diff (np_unique y) in
  s ∈ gaps
  ∧ ∀ g, g ∈ gaps → occurrences g gaps ≤ occurrences s gaps
                    ∧ (occurrences g gaps = occurrences s gaps → (s ≤ g)%Z).
Proof.
  intros Hy. rewrite get_recommended_sigma_um_run, Hy. intros [= Hm _].
  by apply scipy_stats_mode_spec.
Qed.

(** X14.  The recommended [sigma_um] depends on the set of y-coordinates
    only: reordering the contacts, repeating rows or changing the other
    coordinates does not change it. *)
Theorem recommended_sigma_um_depends_on_y_values
    (recording1 recording2 : Recording (T:=Z)) positions1 positions2 h y1 y2 :
  y_coordinates positions1 = inr y1 →
  y_coordinates positions2 = inr y2 →
  (∀ v, v ∈ y1 ↔ v ∈ y2) →
  get_recommended_sigma_um recording1 positions1 h
  = get_recommended_sigma_um recording2 positions2 h.
Proof.
  intros Hy1 Hy2 Hsame. rewrite !get_recommended_sigma_um_run, Hy1, Hy2.
  rewrite (np_unique_sorted_eq y1 (np_unique y2)); [done|apply np_unique_sorted|].
  intros v. by rewrite np_unique_elem.
Qed.

End SigmaFurther.


(** ** The helpers of the extension test suite *)

Section TestHelpers.

#[local] Arguments String.append !_ _ / : simpl nomatch.

Lemma string_app_nil_r (s : string) : s +:+ "" = s.
Proof. induction s as [|c s IH]; [done|]. cbn. by rewrite IH. Qed.

(** Two strings that end in [t1] and [t2]: one of the two ends in the
    other. *)
Lemma string_app_suffix (s1 s2 t1 t2 : string) :
  s1 +:+ t1 = s2 +:+ t2 →
  (∃ u, t2 = u +:+ t1 ∧ s1 = s2 +:+ u) ∨ (∃ u, t1 = u +:+ t2 ∧ s2 = s1 +:+ u).
Proof.
  revert s2. induction s1 as [|c s1 IH]; intros s2 Heq.
  - right. by exists s2.
  - destruct s2 as [|c2 s2].
    + left. by exists (String c s1).
    + cbn in Heq. injection Heq as -> Heq.
      destruct (IH _ Heq) as [(u & -> & ->)|(u & -> & ->)]; [left|right]; by exists u.
Qed.

Ltac no_proper_suffix u :=
  repeat (destruct u as [|? u]; cbn in *; try discriminate).

Lemma folder_component_inj (n1 n2 : string) (s1 s2 : bool) (z1 z2 : bool) :
  n1 +:+ "_sparse" +:+ python_str_bool s1 +:+ "_"
     +:+ (if z1 then "zarr.zarr" else "binary_folder")
  = n2 +:+ "_sparse" +:+ python_str_bool s2 +:+ "_"
       +:+ (if z2 then "zarr.zarr" else "binary_folder") →
  n1 = n2 ∧ s1 = s2 ∧ z1 = z2.
Proof.
  intros Heq.
  destruct (string_app_suffix _ _ _ _ Heq) as [(u & Hu & ->)|(u & Hu & ->)];
    destruct s1, s2, z1, z2; cbn in Hu; no_proper_suffix u;
    by rewrite string_app_nil_r.
Qed.


Lemma analyzer_folder_bound cache_folder name sparse format p :
  analyzer_folder cache_folder name sparse format = Bound (Some p) →
  ∃ z : bool,
    format = (if z then "zarr" else "binary_folder")
    ∧ p = cache_folder ++
          ["test_" +:+ name +:+ "_sparse" +:+ python_str_bool sparse +:+ "_"
             +:+ (if z then "zarr.zarr" else "binary_folder")].
Proof.
  unfold analyzer_folder.
  destruct (String.eqb format "memory"); [done|].
  destruct (String.eqb format "binary_folder") eqn:Hb.
  { apply String.eqb_eq in Hb as ->. intros [= <-]. by exists false. }
  destruct (String.eqb format "zarr") eqn:Hz; [|done].
  apply String.eqb_eq in Hz as ->. intros [= <-]. by exists true.
Qed.

(** X15.  The folder of an analyzer on disk determines the name, the
    sparsity flag and the format it was made for: two calls of
    [get_sorting_analyzer] that differ in one of them never share, and so
    never remove, each other's folder. *)
Theorem analyzer_folder_inj cache_folder name1 sparse1 format1 name2 sparse2 format2 p :
  analyzer_folder cache_folder name1 sparse1 format1 = Bound (Some p) →
  analyzer_folder cache_folder name2 sparse2 format2 = Bound (Some p) →
  name1 = name2 ∧ sparse1 = sparse2 ∧ format1 = format2.
Proof.
  intros (z1 & -> & ->)%analyzer_folder_bound (z2 & -> & Hp)%analyzer_folder_bound.
  apply app_inv_head in Hp. injection Hp as Hp.
  apply (folder_component_inj name1 name2 sparse1 sparse2 z1 z2) in Hp
    as (-> & -> & ->). done.
Qed.

Lemma elem_of_rmtree folder fs p :
  p ∈ rmtree folder fs ↔ p ∈ fs ∧ ¬ (folder `prefix_of` p).
Proof. unfold rmtree. rewrite elem_of_filter. tauto. Qed.

(** X16.  [get_sorting_analyzer] fails with UnboundLocalError, before
    anything is created, exactly for a format other than "memory",
    "binary_folder" and "zarr".  Otherwise it creates the analyzer with
    [sparse=False] on a file system in which the target folder does not
    exist and every path outside the target folder is as before; for the
    memory format the file system is the one it found. *)
Theorem get_sorting_analyzer_cleans_its_folder
    {recording_t sorting_t sparsity_t analyzer_t : Type}
    (cache_folder : list string)
    (create : sorting_t → recording_t → string → option (list string) → bool
              → option sparsity_t → gset (list string) → analyzer_t)
    recording sorting format (sparsity : option sparsity_t) name fs :
  (get_sorting_analyzer cache_folder create recording sorting format sparsity name fs
   = inl UnboundLocalError
   ↔ format ≠ "memory" ∧ format ≠ "binary_folder" ∧ format ≠ "zarr")
  ∧ ∀ analyzer,
      get_sorting_analyzer cache_folder create recording sorting format sparsity name fs
      = inr analyzer →
      ∃ folder fs',
        analyzer_folder cache_folder name (bool_decide (is_Some sparsity)) format
        = Bound folder
        ∧ analyzer = create sorting recording format folder false sparsity fs'
        ∧ match folder with
          | None => format = "memory" ∧ fs' = fs
          | Some f => (f ∉ fs') ∧ ∀ p, ¬ (f `prefix_of` p) → (p ∈ fs' ↔ p ∈ fs)
          end.
Proof.
  unfold get_sorting_analyzer, analyzer_folder. cbn zeta.
  destruct (String.eqb_spec format "memory") as [->|Hm].
  { split; [split; [done|by intros (? & _)]|]. intros analyzer [= <-].
    by eexists None, fs. }
  assert (∀ f : list string,
            let fs' := if bool_decide (f ∈ fs) then rmtree f fs else fs in
            (f ∉ fs') ∧ ∀ p, ¬ (f `prefix_of` p) → (p ∈ fs' ↔ p ∈ fs)) as Hclean.
  { intros f. cbn zeta. case_bool_decide as Hin; [|done]. split.
    - rewrite elem_of_rmtree. intros [_ Hnp]. by apply Hnp.
    - intros p Hp. rewrite elem_of_rmtree. tauto. }
  destruct (String.eqb_spec format "binary_folder") as [->|Hb].
  { split; [split; [done|by intros (_ & ? & _)]|]. intros analyzer [= <-].
    eexists (Some _), _. split; [done|]. split; [done|]. apply Hclean. }
  destruct (String.eqb_spec format "zarr") as [->|Hz].
  { split; [split; [done|by intros (_ & _ & ?)]|]. intros analyzer [= <-].
    eexists (Some _), _. split; [done|]. split; [done|]. apply Hclean. }
  split; [done|done].
Qed.

(** X17.  The six cases of [run_extension_tests] bind a folder each time:
    none for the two memory cases and four pairwise distinct folders for the
    cases on disk of one extension. *)
Theorem extension_test_cases_folders cache_folder name :
  Forall (λ c, analyzer_folder cache_folder name c.1 c.2 ≠ Unbound) extension_test_cases
  ∧ ∃ folders,
      omap (λ c, match analyzer_folder cache_folder name c.1 c.2 with
                 | Bound folder => folder
                 | Unbound => None
                 end) extension_test_cases = folders
      ∧ length folders = 4 ∧ NoDup folders.
Proof.
  split; [by repeat constructor|]. eexists. split; [reflexivity|]. split; [done|].
  cbn. repeat (apply NoDup_cons; split; [|]); [..|apply NoDup_nil_2].
  all: rewrite ?elem_of_cons, elem_of_nil.
  all: intros Hin; repeat (destruct Hin as [Hin|Hin]); try done.
  all: apply app_inv_head in Hin; injection Hin as Hin.
  all: by apply String.app_inj in Hin.
Qed.

End TestHelpers.


(** ** The test suite on the analyzer *)

Section SuiteFurther.
Context {params data : Type}.
Variable registry : gmap string (ExtensionClass (params:=params)).
Variable algorithm :
  string → params → gmap string (ExtensionResult (params:=params) (data:=data))
  → option data.

Local Abbreviation cache_t :=
  (gmap string (ExtensionResult (params:=params) (data:=data))).
Implicit Types (cache c : cache_t).

Lemma compute_default_keeps name cache cache' k v :
  compute_default registry algorithm name cache = inr cache' →
  k ≠ name → cache !! k = Some v → cache' !! k = Some v.
Proof.
  unfold compute_default, compute.
  destruct (registry !! name) as [cls|]; [|done].
  intros (_ & Hk & _)%compute_with_spec. auto.
Qed.

Lemma prepare_dependencies_keep deps cache cache' k v :
  foldl (λ (acc : analyzer_error + cache_t) dependency_name,
           match acc with
           | inl err => inl err
           | inr c =>
               let dependency_name :=
                 if has_bar dependency_name
                 then default dependency_name (head (split_bar dependency_name))
                 else dependency_name in
               compute_default registry algorithm dependency_name c
           end) (inr cache) deps = inr cache' →
  (∀ dep, dep ∈ deps → computed_name dep ≠ k) →
  cache !! k = Some v → cache' !! k = Some v.
Proof.
  revert cache. induction deps as [|dep deps IH]; intros cache.
  - by intros [= <-].
  - cbn [foldl]. cbn zeta. fold (computed_name dep).
    destruct (compute_default registry algorithm (computed_name dep) cache)
      as [err|c] eqn:Hstep.
    { intros Hf. exfalso. revert Hf. clear.
      induction deps as [|d deps IH]; [done|]. cbn. apply IH. }
    intros Hrest Hne Hv. apply (IH c Hrest).
    + intros dep' Hin. apply Hne. by right.
    + eapply compute_default_keeps; [done| |done].
      intros ->. by apply (Hne dep); [left|].
Qed.

(** X18.  What [_prepare_sorting_analyzer] leaves in the cache when it
    succeeds: every dependency of the class is cached, under its name or
    under the part of its name before the first "|", with the default
    parameters of its class; "random_spikes" is cached with the parameters
    the helper passes unless a dependency is computed under that name, in
    which case it ends with its default parameters. *)
Theorem prepare_sorting_analyzer_cache random_spikes_params cls cache cache' :
  _prepare_sorting_analyzer registry algorithm random_spikes_params cls cache
  = inr cache' →
  (∀ dep, dep ∈ depend_on cls → default_entry registry cache' (computed_name dep))
  ∧ ((∀ dep, dep ∈ depend_on cls → computed_name dep ≠ "random_spikes") →
     ∃ d, cache' !! "random_spikes"
          = Some {| ext_params := random_spikes_params; ext_data := d |})
  ∧ ((∃ dep, dep ∈ depend_on cls ∧ computed_name dep = "random_spikes") →
     default_entry registry cache' "random_spikes").
Proof.
  unfold _prepare_sorting_analyzer.
  destruct (compute registry algorithm "random_spikes" _ cache) as [err|c0] eqn:Hrs;
    [done|].
  intros Hdeps. pose proof (prepare_dependencies_spec _ _ _ _ _ Hdeps) as [_ Hall].
  split_and!; [done| |].
  - intros Hne. unfold compute in Hrs.
    apply compute_with_spec in Hrs as (_ & _ & _ & _ & d & Hd).
    exists d. by eapply prepare_dependencies_keep.
  - intros (dep & Hin & <-). by apply Hall.
Qed.

End SuiteFurther.

Section CheckOneFurther.
Context {unit_id V params : Type} `{!EqDecision unit_id}.

Lemma every_second_lookup {A} (l : list A) i :
  every_second l !! i = l !! (2 * i).
Proof.
  assert (∀ l : list A, (∀ i, every_second l !! i = l !! (2 * i))
                        ∧ ∀ x i, every_second (x :: l) !! i = (x :: l) !! (2 * i))
    as Haux; [|apply Haux].
  clear. induction l as [|y l [IH1 IH2]].
  - split; [done|]. intros x [|i]; [done|].
    by replace (2 * S i) with (S (S (2 * i))) by lia.
  - split; [apply IH2|]. intros x [|i]; [done|]. cbn [every_second].
    replace (2 * S i) with (S (S (2 * i))) by lia. cbn. apply IH1.
Qed.

Lemma length_every_second {A} (l : list A) :
  length (every_second l) = Nat.div2 (S (length l)).
Proof.
  assert (∀ l : list A, length (every_second l) = Nat.div2 (S (length l))
                        ∧ ∀ x, length (every_second (x :: l))
                               = Nat.div2 (S (length (x :: l))))
    as Haux; [|apply Haux].
  clear. induction l as [|y l [IH1 IH2]]; [done|].
  split; [apply IH2|]. intros x. cbn [every_second length]. rewrite IH1. done.
Qed.

(** X19.  [_check_one] selects the units at the even positions,
    [unit_ids[::2]]: the i-th selected unit is unit [2 i] and half of the
    units, rounded up, are selected; the selection is accepted and the
    sliced analyzer has these unit ids, so the last assertion holds. *)
Theorem check_one_selects_even_positions
    (analyzer : SortingAnalyzer (unit_id:=unit_id) (V:=V) (params:=params)) :
  (∀ i, every_second (unit_ids analyzer) !! i = unit_ids analyzer !! (2 * i))
  ∧ length (every_second (unit_ids analyzer))
    = Nat.div2 (S (length (unit_ids analyzer)))
  ∧ ∃ sliced,
      select_units (every_second (unit_ids analyzer)) analyzer = Some sliced
      ∧ unit_ids sliced = every_second (unit_ids analyzer).
Proof.
  split_and!.
  - apply every_second_lookup.
  - apply length_every_second.
  - apply select_units_order, every_second_subseteq.
Qed.

End CheckOneFurther.


(** ** The test of the scaling values *)

Section ScalingFurther.

Lemma np_round_one q : np_round q = 1%Z ↔ (1 # 2 < q ∧ q < 3 # 2)%Q.
Proof.
  unfold np_round. cbn zeta.
  pose proof (Qfloor_le q) as Hlo. pose proof (Qlt_floor q) as Hhi.
  rewrite inject_Z_plus in Hhi. change (inject_Z 1) with 1%Q in Hhi.
  set (f := Qfloor q) in *. clearbody f.
  assert ((f ≤ -1 ∧ inject_Z f <= -1)%Q%Z ∨ (f = 0)%Z ∨ (f = 1)%Z
          ∨ (2 ≤ f)%Z ∧ (2 <= inject_Z f)%Q) as Hf.
  { destruct (Z.le_gt_cases f (-1)) as [H|H].
    { left. split; [done|]. change (-1)%Q with (inject_Z (-1)).
      by rewrite <- Zle_Qle. }
    destruct (Z.le_gt_cases 2 f) as [H2|H2]; [|lia].
    right; right; right. split; [done|]. change 2%Q with (inject_Z 2).
    by rewrite <- Zle_Qle. }
  destruct (Qcompare_spec (q - inject_Z f) (1 # 2)) as [Hc|Hc|Hc];
    destruct Hf as [[Hz Hq]|[->|[->|[Hz Hq]]]]; cbn [Z.even Z.add];
    try (change (inject_Z 0) with 0%Q in * );
    try (change (inject_Z 1) with 1%Q in * );
    try (set (F := inject_Z f) in *; clearbody F);
    try destruct (Z.even f);
    (split; [intros HZ; first [exfalso; lia | split; Lqa.lra]
            |intros [H1 H2]; first [lia | exfalso; Lqa.lra]]).
Qed.

Lemma keep_by_mask_cons {A} (b : bool) mask (v : A) values :
  keep_by_mask (b :: mask) (v :: values)
  = if b then v :: keep_by_mask mask values else keep_by_mask mask values.
Proof.
  unfold keep_by_mask. cbn [zip_with]. rewrite filter_cons. cbn [snd].
  destruct b; by case_decide.
Qed.

Lemma keep_by_mask_nil_r {A} mask : keep_by_mask mask (@nil A) = [].
Proof. done. Qed.

Lemma keep_by_mask_no_spike {A} unit_index spike_unit_index (values : list A) :
  unit_index ∉ spike_unit_index →
  keep_by_mask (unit_mask unit_index spike_unit_index) values = [].
Proof.
  revert values. induction spike_unit_index as [|u idx IH]; intros values Hu.
  - by destruct values.
  - apply not_elem_of_cons in Hu as [Hne Hu]. destruct values as [|v values]; [done|].
    unfold unit_mask. cbn [fmap list_fmap]. rewrite keep_by_mask_cons.
    rewrite bool_decide_false by done. by apply IH.
Qed.

Lemma keep_by_mask_spike {A} unit_index spike_unit_index (values : list A) :
  unit_index ∈ spike_unit_index → length spike_unit_index = length values →
  keep_by_mask (unit_mask unit_index spike_unit_index) values ≠ [].
Proof.
  revert values. induction spike_unit_index as [|u idx IH]; intros values Hu Hlen.
  - by apply elem_of_nil in Hu.
  - destruct values as [|v values]; [done|].
    unfold unit_mask. cbn [fmap list_fmap]. rewrite keep_by_mask_cons.
    case_bool_decide as Heq; [done|].
    apply elem_of_cons in Hu as [->|Hu]; [done|].
    apply IH; [done|]. cbn in Hlen. lia.
Qed.

Lemma keep_by_mask_Forall {A} (P : A → Prop) mask values :
  Forall P values → Forall P (keep_by_mask mask values).
Proof.
  intros Hall. revert mask. induction Hall as [|v values Hv Hall IH]; intros mask.
  - by rewrite keep_by_mask_nil_r.
  - destruct mask as [|b mask]; [done|]. rewrite keep_by_mask_cons.
    destruct b; [constructor|]; auto.
Qed.

Lemma sorted_insert_Forall (P : Q → Prop) x l :
  P x → Forall P l → Forall P (sorted_insert x l).
Proof.
  intros Hx. induction 1 as [|y l Hy Hl IH]; cbn; [by repeat constructor|].
  destruct (Qle_bool x y); repeat constructor; auto.
Qed.

Lemma length_sorted_insert x l : length (sorted_insert x l) = S (length l).
Proof.
  induction l as [|y l IH]; [done|]. cbn. destruct (Qle_bool x y); [done|].
  cbn. by rewrite IH.
Qed.

Lemma np_sort_Forall (P : Q → Prop) l : Forall P l → Forall P (np_sort l).
Proof.
  induction 1 as [|x l Hx Hl IH]; [constructor|].
  change (np_sort (x :: l)) with (sorted_insert x (np_sort l)).
  by apply sorted_insert_Forall.
Qed.

Lemma length_np_sort l : length (np_sort l) = length l.
Proof.
  induction l as [|x l IH]; [done|].
  change (np_sort (x :: l)) with (sorted_insert x (np_sort l)).
  by rewrite length_sorted_insert, IH.
Qed.

(** The median of a non-empty array lies strictly between two bounds that
    all its values lie strictly between. *)
Lemma np_median_between (lo hi : Q) l :
  l ≠ [] → Forall (λ a, lo < a ∧ a < hi)%Q l →
  ∃ m, np_median l = Num m ∧ (lo < m ∧ m < hi)%Q.
Proof.
  intros Hne Hall. unfold np_median. cbv zeta.
  apply np_sort_Forall in Hall. rewrite length_np_sort.
  assert (0 < length l) as Hlen by (destruct l; [done|cbn; lia]).
  assert (∀ i, i < length l → (lo < nth i (np_sort l) 0 ∧ nth i (np_sort l) 0 < hi)%Q)
    as Hnth.
  { intros i Hi. rewrite <- length_np_sort in Hi.
    by apply (proj1 (List.Forall_nth _ _) Hall). }
  destruct (Nat.eqb_spec (length l) 0) as [?|_]; [lia|].
  destruct (Nat.odd (length l)).
  - eexists. split; [done|]. apply Hnth. apply Nat.div_lt; lia.
  - eexists. split; [done|].
    assert (length l / 2 < length l) as H1 by (apply Nat.div_lt; lia).
    destruct (Hnth (length l / 2) H1) as [Ha Hb].
    destruct (Hnth (length l / 2 - 1)) as [Hc Hd]; [lia|].
    split; Lqa.lra.
Qed.


(** X21.  A unit without a spike makes [test_scaling_values] fail: its
    mask selects nothing and the median of an empty array is
    not-a-number. *)
Theorem test_scaling_values_unit_without_spike
    num_units spike_unit_index amplitude_scalings unit_index :
  unit_index < num_units → unit_index ∉ spike_unit_index →
  test_scaling_values num_units spike_unit_index amplitude_scalings = false.
Proof.
  intros Hu Hno. apply not_true_is_false. unfold test_scaling_values.
  rewrite forallb_forall. intros Hall. specialize (Hall unit_index).
  unfold median_rounds_to_one in Hall. rewrite keep_by_mask_no_spike in Hall by done.
  discriminate Hall. apply in_seq. lia.
Qed.

(** X22.  [test_scaling_values] passes when there is one scaling per spike,
    every unit has a spike and every scaling lies strictly between 1/2 and
    3/2. *)
Theorem test_scaling_values_passes num_units spike_unit_index amplitude_scalings :
  length spike_unit_index = length amplitude_scalings →
  (∀ unit_index, unit_index < num_units → unit_index ∈ spike_unit_index) →
  Forall (λ a, 1 # 2 < a ∧ a < 3 # 2)%Q amplitude_scalings →
  test_scaling_values num_units spike_unit_index amplitude_scalings = true.
Proof.
  intros Hlen Hspike Hall. unfold test_scaling_values. rewrite forallb_forall.
  intros u [_ Hu]%in_seq. unfold median_rounds_to_one.
  destruct (np_median_between (1 # 2) (3 # 2)
              (keep_by_mask (unit_mask u spike_unit_index) amplitude_scalings))
    as (m & -> & Hm).
  - apply keep_by_mask_spike; [|done]. apply Hspike. lia.
  - by apply keep_by_mask_Forall.
  - by apply Z.eqb_eq, np_round_one.
Qed.

End ScalingFurther.



(** ** Instances of the further properties *)

Section FurtherInstances.

Lemma get_traces_answer_is_private_witness :
  get_traces ex_segment 0 2 SliceAll ex_store
  = (inr (View 3 0 2), (get_traces ex_segment 0 2 SliceAll ex_store).2)
  ∧ length ex_store ≤ 3
  ∧ ∀ res h'',
      np_setitem_cols (View 3 0 2) 1 (Matrix 1 [[7]; [8]]%Z)
        (get_traces ex_segment 0 2 SliceAll ex_store).2 = (res, h'') →
      pull_value ex_segment 0 2 SliceAll h'' = pull_value ex_segment 0 2 SliceAll ex_store.
Proof.
  assert (get_traces ex_segment 0 2 SliceAll ex_store
          = (inr (View 3 0 2), (get_traces ex_segment 0 2 SliceAll ex_store).2))
    as Hrun by reflexivity.
  split; [exact Hrun|].
  destruct (get_traces_answer_is_private (NumpyRecordingSegment 0) 1 2 0 2 SliceAll
              ex_store _ _ Hrun) as (Hfresh & _ & Hprivate).
  split; [exact Hfresh|].
  intros res h'' Hset.
  apply (Hprivate 1 (Matrix 1 [[7]; [8]]%Z) res h'' ex_segment 0%Z 2%Z SliceAll Hset).
  cbn. lia.
Defined.


Lemma get_traces_without_bad_channels_witness :
  seg_valid ex_store_no_bad (NumpyRecordingSegment 0)
  ∧ pull_value ex_segment 0 2 SliceAll ex_store_no_bad
    = inr (Matrix 3 [[1; 2; 3]; [4; 5; 6]]%Z).
Proof.
  assert (seg_valid ex_store_no_bad (NumpyRecordingSegment 0)) as Hvalid by (cbn; lia).
  split; [exact Hvalid|].
  refine (get_traces_without_bad_channels (NumpyRecordingSegment 0) 1 2 0 2 SliceAll
    ex_store_no_bad _ true (Matrix 0 [[]; []; []]) true Hvalid _ _ _ _ _);
    reflexivity.
Defined.

Lemma get_traces_repeated_index_keeps_last_witness :
  heap_wf ex_store_repeated
  ∧ ∃ y product,
      view_matrix (View 3 0 2) (get_traces ex_segment 0 2 SliceAll ex_store_repeated).2
      = (inr y, (get_traces ex_segment 0 2 SliceAll ex_store_repeated).2)
      ∧ np_matmul (Matrix 3 [[1; 2; 3]; [4; 5; 6]]%Z)
          (Matrix 2 [[1; 0]; [0; 0]; [0; 1]]%Z) = inr product
      ∧ column 1 (rows y) = column 1 (rows product).
Proof.
  assert (heap_wf ex_store_repeated) as Hwf.
  { unfold heap_wf, ex_store_repeated, matrix_wf. repeat constructor. }
  split; [exact Hwf|].
  destruct (get_traces_repeated_index_keeps_last (NumpyRecordingSegment 0) 1 2 0 2
              SliceAll ex_store_repeated (View 3 0 2)
              (get_traces ex_segment 0 2 SliceAll ex_store_repeated).2
              (Matrix 3 [[1; 2; 3]; [4; 5; 6]]%Z) true
              (Matrix 2 [[1; 0]; [0; 0]; [0; 1]]%Z) true [1; 1]%Z [1; 1] Hwf)
    as (y & product & Hy & Hproduct & Hlast).
  - cbn. lia.
  - reflexivity.
  - reflexivity.
  - reflexivity.
  - reflexivity.
  - reflexivity.
  - reflexivity.
  - exists y, product. split; [exact Hy|]. split; [exact Hproduct|].
    apply (Hlast 1 1); [reflexivity|]. intros [|[|k']] Hk; [lia|lia|]. by destruct k'.
Defined.

Lemma stacked_segments_compose_witness :
  seg_valid ex_store
    (InterpolateBadChannelsSegment
       (InterpolateBadChannelsSegment (NumpyRecordingSegment 0) 1 2) 1 2)
  ∧ pull_value
      (InterpolateBadChannelsSegment
         (InterpolateBadChannelsSegment (NumpyRecordingSegment 0) 1 2) 1 2)
      0 2 SliceAll ex_store
    = inr (Matrix 3 [[1; 4; 3]; [4; 10; 6]]%Z).
Proof.
  assert (seg_valid ex_store
            (InterpolateBadChannelsSegment
               (InterpolateBadChannelsSegment (NumpyRecordingSegment 0) 1 2) 1 2))
    as Hvalid by (cbn; lia).
  split; [exact Hvalid|].
  rewrite (stacked_segments_compose (NumpyRecordingSegment 0) 1 2 1 2 0 2 SliceAll
             ex_store Hvalid).
  reflexivity.
Defined.

Lemma init_failure_leaves_store_witness :
  __init__ (λ _ _ _ _, inl ValueError) ex_recording (PyNdarray 1) None 1%Z ex_store
  = (inl ValueError,
     (__init__ (λ _ _ _ _, inl ValueError) ex_recording (PyNdarray 1) None 1%Z ex_store).2)
  ∧ (__init__ (λ _ _ _ _, inl ValueError) ex_recording (PyNdarray 1) None 1%Z ex_store).2
    = ex_store.
Proof.
  assert (__init__ (λ _ _ _ _, inl ValueError) ex_recording (PyNdarray 1) None 1%Z ex_store
          = (inl ValueError,
             (__init__ (λ _ _ _ _, inl ValueError) ex_recording (PyNdarray 1) None 1%Z
                ex_store).2)) as Hrun by reflexivity.
  split; [exact Hrun|].
  exact (init_failure_leaves_store _ _ _ _ _ _ _ _ Hrun).
Defined.

Lemma init_without_y_column_witness :
  ncols (contact_positions ex_probe_line) < 2
  ∧ __init__ ex_kriging ex_recording_line (PyNdarray 1) None 1%Z ex_store
    = (inl IndexError, ex_store).
Proof.
  assert (ncols (contact_positions ex_probe_line) < 2) as Hcols by (cbn; lia).
  split; [exact Hcols|].
  exact (init_without_y_column ex_kriging ex_recording_line 1 1%Z ex_store
           ex_probe_line eq_refl eq_refl Hcols).
Defined.

Lemma init_single_row_sigma_is_nan_witness :
  __init__ ex_kriging ex_recording_row (PyNdarray 1) None 1%Z ex_store
  = (inr (constructed_stage ex_recording_row 1 NaN 1%Z 3),
     constructed_store ex_store 1 (Ndarray true (Int1D [1%Z])) ex_weights)
  ∧ kw_sigma_um (_kwargs (constructed_stage ex_recording_row 1 NaN 1%Z 3)) = NaN.
Proof.
  assert (__init__ ex_kriging ex_recording_row (PyNdarray 1) None 1%Z ex_store
          = (inr (constructed_stage ex_recording_row 1 NaN 1%Z 3),
             constructed_store ex_store 1 (Ndarray true (Int1D [1%Z])) ex_weights))
    as Hinit by reflexivity.
  split; [exact Hinit|].
  refine (init_single_row_sigma_is_nan ex_kriging ex_recording_row (PyNdarray 1) 1%Z
            ex_store _ _ ex_probe_row [0; 0; 0]%Z eq_refl eq_refl _ Hinit).
  intros v1 v2 H1 H2. rewrite !elem_of_cons, elem_of_nil in H1.
  rewrite !elem_of_cons, elem_of_nil in H2. lia.
Defined.

Lemma init_then_get_traces_witness :
  __init__ ex_kriging ex_recording (PyNdarray 1) None 1%Z ex_store
  = (inr ex_stage, ex_store_locked)
  ∧ Forall (seg_valid ex_store) (_recording_segments ex_recording)
  ∧ Forall (seg_valid ex_store_locked) (recording_segments ex_stage)
  ∧ pull_value (InterpolateBadChannelsSegment (NumpyRecordingSegment 0) 1 3) 0 2
      SliceAll ex_store_locked
    = inr (Matrix 3 [[1; 4; 3]; [4; 10; 6]]%Z).
Proof.
  assert (__init__ ex_kriging ex_recording (PyNdarray 1) None 1%Z ex_store
          = (inr ex_stage, ex_store_locked)) as Hinit by reflexivity.
  assert (Forall (seg_valid ex_store) (_recording_segments ex_recording)) as Hvalid.
  { repeat constructor. }
  split; [exact Hinit|]. split; [exact Hvalid|].
  destruct (init_then_get_traces ex_kriging ex_recording (PyNdarray 1) None 1%Z
              ex_store ex_stage ex_store_locked Hinit Hvalid)
    as (b & a & probe & sigma & w & Hb & Ha & Hw & Hsegs & Hpull).
  split; [exact Hsegs|].
  injection Hb as <-. cbn in Ha. injection Ha as <-.
  unfold ex_kriging in Hw. injection Hw as <-.
  destruct (Hpull 0 (NumpyRecordingSegment 0) eq_refl) as [_ Heq].
  etrans; [exact (Heq 0%Z 2%Z SliceAll)|reflexivity].
Defined.


Lemma recommended_sigma_um_positive_witness :
  get_recommended_sigma_um ex_recording (contact_positions ex_probe) ex_store
  = (inr (Num 20%Z), ex_store)
  ∧ (0 < 20)%Z.
Proof.
  assert (get_recommended_sigma_um ex_recording (contact_positions ex_probe) ex_store
          = (inr (Num 20%Z), ex_store)) as Hrun by reflexivity.
  split; [exact Hrun|].
  exact (proj1 (recommended_sigma_um_positive ex_recording _ _ _ _ Hrun)).
Defined.

Lemma recommended_sigma_um_most_common_witness :
  y_coordinates (contact_positions ex_probe) = inr [0; 0; 20; 20; 40; 40; 60; 60]%Z
  ∧ get_recommended_sigma_um ex_recording (contact_positions ex_probe) ex_store
    = (inr (Num 20%Z), ex_store)
  ∧ 20%Z ∈ np_diff (np_unique [0; 0; 20; 20; 40; 40; 60; 60]%Z).
Proof.
  assert (get_recommended_sigma_um ex_recording (contact_positions ex_probe) ex_store
          = (inr (Num 20%Z), ex_store)) as Hrun by reflexivity.
  assert (y_coordinates (contact_positions ex_probe)
          = inr [0; 0; 20; 20; 40; 40; 60; 60]%Z) as Hy by reflexivity.
  split; [exact Hy|]. split; [exact Hrun|].
  exact (proj1 (recommended_sigma_um_most_common ex_recording _ _ _ _ _ Hy Hrun)).
Defined.

Lemma recommended_sigma_um_depends_on_y_values_witness :
  (∀ v : Z, v ∈ [0; 20; 40]%Z ↔ v ∈ [40; 0; 20; 0]%Z)
  ∧ get_recommended_sigma_um ex_recording (Matrix 2 [[0; 0]; [0; 20]; [0; 40]]%Z) ex_store
    = get_recommended_sigma_um ex_recording
        (Matrix 2 [[5; 40]; [5; 0]; [9; 20]; [7; 0]]%Z) ex_store.
Proof.
  assert (∀ v : Z, v ∈ [0; 20; 40]%Z ↔ v ∈ [40; 0; 20; 0]%Z) as Hsame.
  { intros v. rewrite !elem_of_cons, !elem_of_nil. lia. }
  split; [exact Hsame|].
  exact (recommended_sigma_um_depends_on_y_values ex_recording ex_recording
           (Matrix 2 [[0; 0]; [0; 20]; [0; 40]]%Z)
           (Matrix 2 [[5; 40]; [5; 0]; [9; 20]; [7; 0]]%Z) ex_store
           [0; 20; 40]%Z [40; 0; 20; 0]%Z eq_refl eq_refl Hsame).
Defined.

Lemma analyzer_folder_inj_witness :
  analyzer_folder ["cache_folder"; "postprocessing"] "amplitude_scalings" true "zarr"
  = Bound (Some ["cache_folder"; "postprocessing";
                 "test_amplitude_scalings_sparseTrue_zarr.zarr"])
  ∧ "amplitude_scalings" = "amplitude_scalings" ∧ true = true ∧ "zarr" = "zarr".
Proof.
  assert (analyzer_folder ["cache_folder"; "postprocessing"] "amplitude_scalings" true "zarr"
          = Bound (Some ["cache_folder"; "postprocessing";
                         "test_amplitude_scalings_sparseTrue_zarr.zarr"]))
    as Hfolder by reflexivity.
  split; [exact Hfolder|].
  exact (analyzer_folder_inj _ _ _ _ _ _ _ _ Hfolder Hfolder).
Defined.

Lemma prepare_sorting_analyzer_cache_witness :
  _prepare_sorting_analyzer ex_registry ex_algorithm 9 ex_amplitude_scalings ∅
  = inr ex_prepared_cache
  ∧ default_entry ex_registry ex_prepared_cache "waveforms".
Proof.
  assert (_prepare_sorting_analyzer ex_registry ex_algorithm 9 ex_amplitude_scalings ∅
          = inr ex_prepared_cache) as Hrun by reflexivity.
  split; [exact Hrun|].
  refine (proj1 (prepare_sorting_analyzer_cache ex_registry ex_algorithm 9
                   ex_amplitude_scalings ∅ ex_prepared_cache Hrun) "waveforms" _).
  cbn. apply elem_of_cons. right. apply elem_of_cons. by left.
Defined.

Lemma test_scaling_values_unit_without_spike_witness :
  1 < 2 ∧ (1 ∉ [0; 0])
  ∧ test_scaling_values 2 [0; 0] [1; 1]%Q = false.
Proof.
  assert (1 < 2) as Hunit by lia.
  assert (1 ∉ [0; 0]) as Hno.
  { rewrite !not_elem_of_cons. split_and!; [lia..|apply not_elem_of_nil]. }
  split; [exact Hunit|]. split; [exact Hno|].
  exact (test_scaling_values_unit_without_spike 2 [0; 0] [1; 1]%Q 1 Hunit Hno).
Defined.

Lemma test_scaling_values_passes_witness :
  length [0; 1; 0] = length [1; 11 # 10; 9 # 10]%Q
  ∧ test_scaling_values 2 [0; 1; 0] [1; 11 # 10; 9 # 10]%Q = true.
Proof.
  split; [reflexivity|].
  apply (test_scaling_values_passes 2 [0; 1; 0] [1; 11 # 10; 9 # 10]%Q).
  - reflexivity.
  - intros [|[|u]] Hu; [by left|right; by left|lia].
  - repeat constructor.
Defined.

End FurtherInstances.
